(** * Verification of lib-settings/settings.c (dovecot-core)

    A shallow embedding of the configuration file reader
    [settings_read_i] and of its helpers ([get_bool], [get_uint],
    [expand_environment_vars], [parse_setting_from_defs],
    [fix_relative_path], [settings_add_include], [settings_include]),
    followed by the properties of the reader.

    Conventions of the embedding:
    - a C string ([const char *]) is a [string]; the end of the string
      stands for the terminating NUL.  A physical line handed out by
      [i_stream_read_next_line] is cut at its first NUL byte ([c_str])
      before any scanning, as every [*p != '\0'] test of the source does;
    - [int] variables ([skip], [sections], [root_section],
      [last_section_line]) are [Z]; [unsigned int linenum] is a [Z] that
      wraps at 2^32 and is printed through [%d];
    - the file system, glob(3), getenv(3) and the two consumer callbacks
      are parameters of the reader (records [world] and [callbacks]);
    - every callback invocation is appended to the ghost list [calls], and
      every classified logical line to the ghost list [events]. *)

From Stdlib Require Import String Ascii List ZArith Lia Bool Arith.
From Stdlib Require Import DecimalString.
Import ListNotations.

Local Open Scope string_scope.
Local Open Scope Z_scope.

(** ** Characters and C string helpers *)

Definition NUL : ascii := Ascii.zero.
Definition TAB : ascii := "009"%char.

(** [#define IS_WHITE(c) ((c) == ' ' || (c) == '\t')] *)
Definition IS_WHITE (c : ascii) : bool :=
  Ascii.eqb c " " || Ascii.eqb c TAB.

(** The C string stored in a buffer: everything before the first NUL. *)
Fixpoint c_str (buf : string) : string :=
  match buf with
  | EmptyString => EmptyString
  | String c rest => if Ascii.eqb c NUL then EmptyString else String c (c_str rest)
  end.

(** [*s], with the terminating NUL at the end of the string. *)
Definition head_char (s : string) : ascii :=
  match s with
  | EmptyString => NUL
  | String c _ => c
  end.

Fixpoint last_char (s : string) : option ascii :=
  match s with
  | EmptyString => None
  | String c EmptyString => Some c
  | String _ rest => last_char rest
  end.

(** All characters but the last one ([line[len-1] = '\0']). *)
Fixpoint drop_last (s : string) : string :=
  match s with
  | EmptyString => EmptyString
  | String _ EmptyString => EmptyString
  | String c rest => String c (drop_last rest)
  end.

(** [while (IS_WHITE( *line )) line++;] *)
Fixpoint skip_white (s : string) : string :=
  match s with
  | String c rest => if IS_WHITE c then skip_white rest else s
  | EmptyString => EmptyString
  end.

(** [len = strlen(line); while (IS_WHITE(line[len-1])) len--; line[len] = '\0';]
    on a line that holds a non-white character.  On a line made of white
    characters only the loop of the source would read [line[-1]]; the callers
    below never pass such a line (see [trim_continuation]). *)
Fixpoint rtrim (s : string) : string :=
  match s with
  | EmptyString => EmptyString
  | String c rest =>
      match rtrim rest with
      | EmptyString => if IS_WHITE c then EmptyString else String c EmptyString
      | r => String c r
      end
  end.

(** [strchr(s, c)]: the text before the first [c] and the suffix that starts
    at this [c]; [None] when [c] does not occur. *)
Fixpoint strchr (s : string) (c : ascii) : option (string * string) :=
  match s with
  | EmptyString => None
  | String d rest =>
      if Ascii.eqb d c then Some (EmptyString, s)
      else match strchr rest c with
           | Some (pre, suf) => Some (String d pre, suf)
           | None => None
           end
  end.

(** [strrchr(s, c)], returned as the prefix of [s] up to and including the
    last [c] (all that [fix_relative_path] uses of it). *)
Fixpoint strrchr_prefix (s : string) (c : ascii) : option string :=
  match s with
  | EmptyString => None
  | String d rest =>
      match strrchr_prefix rest c with
      | Some pre => Some (String d pre)
      | None => if Ascii.eqb d c then Some (String d EmptyString) else None
      end
  end.

(** [t_strcut(s, c)]: the prefix of [s] before the first [c], all of [s]
    when there is none. *)
Fixpoint t_strcut (s : string) (c : ascii) : string :=
  match s with
  | EmptyString => EmptyString
  | String d rest => if Ascii.eqb d c then EmptyString else String d (t_strcut rest c)
  end.

(** [s + n] for [n <= strlen(s)]. *)
Fixpoint str_drop (n : nat) (s : string) : string :=
  match n, s with
  | O, _ => s
  | S n', String _ rest => str_drop n' rest
  | S _, EmptyString => EmptyString
  end.

(** [str_begins_with(s, prefix)] *)
Definition str_begins_with (s pre : string) : bool := String.prefix pre s.

(** [%d] of an [int]. *)
Definition dec (z : Z) : string := NilZero.string_of_int (Z.to_int z).

(** Conversion of a 32-bit [unsigned int] to [int] (two's complement). *)
Definition int_of_uint (u : Z) : Z :=
  if u <? 2 ^ 31 then u else u - 2 ^ 32.

(** [linenum++] on an [unsigned int]. *)
Definition uint_incr (u : Z) : Z := (u + 1) mod 2 ^ 32.

(** [tolower] on the ASCII letters, for [strcasecmp]. *)
Definition ascii_tolower (c : ascii) : ascii :=
  let n := nat_of_ascii c in
  if ((65 <=? n) && (n <=? 90))%nat then ascii_of_nat (n + 32) else c.

Fixpoint str_tolower (s : string) : string :=
  match s with
  | EmptyString => EmptyString
  | String c rest => String (ascii_tolower c) (str_tolower rest)
  end.

(** [strcasecmp(a, b) == 0] *)
Definition strcasecmp_eq (a b : string) : bool :=
  String.eqb (str_tolower a) (str_tolower b).

(** ** Value coercers *)

(** A coercer returns either the value it would store through its result
    pointer, or the error message; on an error the pointer is not written. *)
Inductive coerced (A : Type) : Type :=
| Stored (v : A)
| Invalid (msg : string).
Arguments Stored {A} v.
Arguments Invalid {A} msg.

Definition get_bool (value : string) : coerced bool :=
  if strcasecmp_eq value "yes" then Stored true
  else if strcasecmp_eq value "no" then Stored false
  else Invalid ("Invalid boolean: " ++ value).

(** *** The [%i] conversion of sscanf(3)

    Modelled from the C library's documentation: white space is skipped, an
    optional sign is read, then the longest run of digits in the base chosen
    by the prefix ([0x]/[0X]: 16, [0]: 8, otherwise 10).  Text after the
    number is left unread and does not make the conversion fail; [0x] with
    no hexadecimal digit after it is not a number.  The result
    is clamped to the range of [long] (64 bits) as strtol(3) does and then
    stored into the [int], keeping its low 32 bits. *)

Definition isspace (c : ascii) : bool :=
  let n := nat_of_ascii c in
  ((n =? 32) || ((9 <=? n) && (n <=? 13)))%nat.

Fixpoint skip_space (s : string) : string :=
  match s with
  | String c rest => if isspace c then skip_space rest else s
  | EmptyString => EmptyString
  end.

(** The value of [c] as a digit of base [base], when it is one. *)
Definition digit_value (base : Z) (c : ascii) : option Z :=
  let n := Z.of_nat (nat_of_ascii c) in
  let v :=
    if (48 <=? n) && (n <=? 57) then Some (n - 48)
    else if (97 <=? n) && (n <=? 102) then Some (n - 87)
    else if (65 <=? n) && (n <=? 70) then Some (n - 55)
    else None in
  match v with
  | Some d => if d <? base then Some d else None
  | None => None
  end.

(** Reads the longest run of digits; [None] when there is no digit. *)
Fixpoint scan_digits (base : Z) (acc : option Z) (s : string) : option Z :=
  match s with
  | EmptyString => acc
  | String c rest =>
      match digit_value base c with
      | Some d =>
          scan_digits base (Some (match acc with Some a => a * base + d | None => d end)) rest
      | None => acc
      end
  end.

Definition scan_unsigned (s : string) : option Z :=
  match s with
  | String "0" (String x rest) =>
      if Ascii.eqb x "x" || Ascii.eqb x "X" then scan_digits 16 None rest
      else scan_digits 8 (Some 0) (String x rest)
  | _ => scan_digits 10 None s
  end.

Definition LONG_MAX : Z := 2 ^ 63 - 1.
Definition LONG_MIN : Z := - 2 ^ 63.

Definition clamp_long (z : Z) : Z :=
  if z <? LONG_MIN then LONG_MIN else if LONG_MAX <? z then LONG_MAX else z.

(** Storing a [long] into an [int]: the low 32 bits, two's complement. *)
Definition int_of_long (z : Z) : Z :=
  int_of_uint (z mod 2 ^ 32).

(** [sscanf(value, "%i", &num)]: [Some num] when it returns 1. *)
Definition sscanf_i (value : string) : option Z :=
  let s := skip_space value in
  let '(neg, body) :=
    match s with
    | String "-" rest => (true, rest)
    | String "+" rest => (false, rest)
    | _ => (false, s)
    end in
  match scan_unsigned body with
  | Some v => Some (int_of_long (clamp_long (if neg then - v else v)))
  | None => None
  end.

Definition get_uint (value : string) : coerced Z :=
  match sscanf_i value with
  | Some num => if num <? 0 then Invalid ("Invalid number: " ++ value) else Stored num
  | None => Invalid ("Invalid number: " ++ value)
  end.

(** ** Environment expansion *)

Section Environment.

(** [getenv(3)]: the process environment. *)
Variable getenv : string -> option string.

(** The [while] loop of [expand_environment_vars].  [pvalue] is the text
    that starts at the pointer of the same name, [prev] the character just
    before it ([None] when [pvalue == value]), [expanded] the buffer
    [expanded_value].  Every turn consumes at least the ['$'] it found, so
    [fuel] = [strlen(value)] + 1 turns are enough. *)
Fixpoint expand_loop (fuel : nat) (prev : option ascii) (pvalue expanded : string)
  : string :=
  match fuel with
  | O => expanded ++ pvalue
  | S fuel' =>
      match strchr pvalue "$" with
      | None => expanded ++ pvalue               (* str_append(expanded_value, pvalue) *)
      | Some (between, p) =>
          let expanded := expanded ++ between in
          let before_p := match last_char between with
                          | Some c => Some c
                          | None => prev
                          end in
          let at_start_or_white := match before_p with
                                   | None => true          (* p == value *)
                                   | Some c => IS_WHITE c  (* IS_WHITE(p[-1]) *)
                                   end in
          if at_start_or_white && str_begins_with p "$ENV:" then
            match strchr p " " with
            | None =>
                (* var_name = p + 5; pvalue = NULL: nothing more is appended *)
                match getenv (str_drop 5 p) with
                | Some envval => expanded ++ envval
                | None => expanded
                end
            | Some (var, var_end) =>
                (* var_name = t_strdup_until(p + 5, var_end) *)
                let expanded := match getenv (str_drop 5 var) with
                                | Some envval => expanded ++ envval
                                | None => expanded
                                end in
                expand_loop fuel' (last_char var) var_end expanded
            end
          else
            expand_loop fuel' (Some "$"%char) (str_drop 1 p) (expanded ++ "$")
      end
  end.

Definition expand_environment_vars (value : string) : string :=
  match strchr value "$" with
  | None => value                                   (* fast path *)
  | Some (pre, pvalue) =>
      (* str_append_data(expanded_value, value, pvalue - value) *)
      expand_loop (S (String.length value)) (last_char pre) pvalue pre
  end.

End Environment.

(** ** Unescaping

    Modelled from the spec: [str_unescape] lives in lib/strescape.c, which is
    not part of the sources at hand; the spec says that a quoted value has
    its "backslash sequences" unescaped and that inside quotes "\X escapes
    any character X".  Every backslash is dropped and the character after it
    is kept as it is; a backslash that ends the string is dropped. *)
Fixpoint str_unescape (s : string) : string :=
  match s with
  | EmptyString => EmptyString
  | String c rest =>
      if Ascii.eqb c "\" then
        match rest with
        | EmptyString => EmptyString
        | String d rest' => String d (str_unescape rest')
        end
      else String c (str_unescape rest)
  end.

(** ** Definition-driven setter *)

Inductive setting_type := SET_STR | SET_INT | SET_BOOL.

Record setting_def := {
  def_name : string;
  def_type : setting_type;
  def_offset : nat
}.

(** What is written at an offset of the consumer record. *)
Inductive setting_value :=
| Val_str (s : string)
| Val_uint (n : Z)
| Val_bool (b : bool).

(** The consumer record [base], addressed by byte offset. *)
Definition settings_base := nat -> option setting_value.

Definition base_store (base : settings_base) (off : nat) (v : setting_value)
  : settings_base :=
  fun o => if Nat.eqb o off then Some v else base o.

(** [parse_setting_from_defs]: the record after the call and the returned
    error ([None] for NULL).  [defs] is the table up to its sentinel. *)
Fixpoint parse_setting_from_defs (defs : list setting_def) (base : settings_base)
    (key value : string) : settings_base * option string :=
  match defs with
  | [] => (base, Some ("Unknown setting: " ++ key))
  | def :: defs' =>
      if String.eqb (def_name def) key then
        match def_type def with
        | SET_STR => (base_store base (def_offset def) (Val_str value), None)
        | SET_INT =>
            match get_uint value with
            | Stored n => (base_store base (def_offset def) (Val_uint n), None)
            | Invalid msg => (base, Some msg)
            end
        | SET_BOOL =>
            match get_bool value with
            | Stored b => (base_store base (def_offset def) (Val_bool b), None)
            | Invalid msg => (base, Some msg)
            end
        end
      else parse_setting_from_defs defs' base key value
  end.

(** ** Input stack and includes *)

(** [struct input_stack]: the [prev] link is the tail of the list that holds
    the frames, the stream is the list of the lines not read yet. *)
Record input_stack := {
  path : string;
  input_lines : list string;
  linenum : Z
}.

(** [open(2)] failures, with the text [%m] prints for them. *)
Inductive errno := ENOENT | EACCES | ENOTDIR | EMFILE.

Definition strerror (e : errno) : string :=
  match e with
  | ENOENT => "No such file or directory"
  | EACCES => "Permission denied"
  | ENOTDIR => "Not a directory"
  | EMFILE => "Too many open files"
  end.

Inductive open_result :=
| Opened (lines : list string)   (* the lines the stream will hand out *)
| OpenFailed (e : errno).

(** Return values of glob(3). *)
Inductive glob_result :=
| GlobOk (pathv : list string)
| GLOB_NOSPACE
| GLOB_ABORTED
| GLOB_NOMATCH
| GlobUnknown.

(** What the reader sees of the outside. *)
Record world := {
  file_open : string -> open_result;     (* open(path, O_RDONLY) and the file's lines *)
  HAVE_GLOB : bool;                      (* the build has glob(3) *)
  glob : string -> glob_result;          (* glob(pattern, GLOB_BRACE, NULL, &globbers) *)
  getenv : string -> option string
}.

Definition fix_relative_path (pth : string) (input : input_stack) : string :=
  if Ascii.eqb (head_char pth) "/" then pth
  else match strrchr_prefix (path input) "/" with
       | None => pth
       | Some dir => dir ++ pth
       end.

(** Is [pth] the path of a frame of the stack? *)
Definition on_stack (pth : string) (inputp : list input_stack) : bool :=
  existsb (fun tmp => String.eqb (path tmp) pth) inputp.

(** [settings_add_include]: the stack after the call together with the return
    value: [None] for 0, [Some error] for -1 with [*error_r] set. *)
Definition settings_add_include (w : world) (pth : string)
    (inputp : list input_stack) (ignore_errors : bool)
  : list input_stack * option string :=
  if on_stack pth inputp then
    (inputp, Some ("Recursive include file: " ++ pth))
  else
    match file_open w pth with
    | OpenFailed e =>
        if ignore_errors then (inputp, None)
        else (inputp, Some ("Couldn't open include file " ++ pth ++ ": " ++ strerror e))
    | Opened lines =>
        ({| path := pth; input_lines := lines; linenum := 0 |} :: inputp, None)
    end.

(** The [for] loop of [settings_include] over [gl_pathv]. *)
Fixpoint include_paths (w : world) (pathv : list string)
    (inputp : list input_stack) (ignore_errors : bool)
  : list input_stack * option string :=
  match pathv with
  | [] => (inputp, None)
  | p :: pathv' =>
      match settings_add_include w p inputp ignore_errors with
      | (inputp', None) => include_paths w pathv' inputp' ignore_errors
      | (inputp', Some err) => (inputp', Some err)
      end
  end.

Definition settings_include (w : world) (pattern : string)
    (inputp : list input_stack) (ignore_errors : bool)
  : list input_stack * option string :=
  if HAVE_GLOB w then
    match glob w pattern with
    | GlobOk pathv => include_paths w pathv inputp ignore_errors
    | GLOB_NOSPACE => (inputp, Some "glob() failed: Not enough memory")
    | GLOB_ABORTED => (inputp, Some "glob() failed: Read error")
    | GLOB_NOMATCH =>
        if ignore_errors then (inputp, None) else (inputp, Some "No matches")
    | GlobUnknown => (inputp, Some "glob() failed: Unknown error")
    end
  else settings_add_include w pattern inputp ignore_errors.

(** ** The line scanner *)

Definition DQUOTE : ascii := "034"%char.
Definition SQUOTE : ascii := "'"%char.

(** Where the comment-stripping scan of [settings_read_i] stands: outside
    quotes, inside a span opened by [quote], or on the character that follows
    a backslash inside such a span (the inner [p++]). *)
Inductive scan_mode :=
| Outside
| InQuote (quote : ascii)
| Escaped (quote : ascii).

Definition keep (c : ascii) (r : string * bool) : string * bool :=
  (String c (fst r), snd r).

(** The [for (p = line; *p != '\0'; p++)] loop that cuts the line at the first
    ['#'] outside quotes.  [prev] is [p[-1]].  Returns the line that is left
    and whether the "Ambiguous '#'" warning is logged. *)
Fixpoint strip_comment (m : scan_mode) (prev : ascii) (s : string) : string * bool :=
  match s with
  | EmptyString => (EmptyString, false)
  | String c rest =>
      match m with
      | Outside =>
          if Ascii.eqb c SQUOTE || Ascii.eqb c DQUOTE then
            keep c (strip_comment (InQuote c) c rest)
          else if Ascii.eqb c "#" then
            (EmptyString, negb (IS_WHITE prev))
          else keep c (strip_comment Outside c rest)
      | InQuote quote =>
          if Ascii.eqb c quote then keep c (strip_comment Outside c rest)
          else if Ascii.eqb c "\" && negb (Ascii.eqb (head_char rest) NUL) then
            keep c (strip_comment (Escaped quote) c rest)
          else keep c (strip_comment (InQuote quote) c rest)
      | Escaped quote => keep c (strip_comment (InQuote quote) c rest)
      end
  end.

(** What one physical line turns into. *)
Inductive scanned :=
| Blank                                   (* comment or empty line: [continue] *)
| Continues (part : string) (warn : bool) (* ends with a backslash *)
| Logical (line : string) (warn : bool)   (* goes on to the dispatcher *)
| ReadsBeforeLine.                        (* the source reads [line[-1]] *)

(** The scan of one physical line, up to the continuation test.  A line that
    is a lone backslash makes the second trimming loop of the source test
    [line[len-1]] with [len] = 0, a byte that is not part of the line. *)
Definition scan_line (raw : string) : scanned :=
  let line := skip_white (c_str raw) in
  if Ascii.eqb (head_char line) "#" || Ascii.eqb (head_char line) NUL then Blank
  else
    let '(line, warn) := strip_comment Outside NUL line in
    let line := rtrim line in
    match last_char line with
    | Some "\"%char =>
        match drop_last line with
        | EmptyString => ReadsBeforeLine
        | body => Continues (rtrim body) warn
        end
    | _ => Logical line warn
    end.

(** [key = line; while (!IS_WHITE( *line ) && *line != '\0' && *line != '=') line++;]
    as the pair of the text passed over and of the text [line] points to. *)
Fixpoint split_key (s : string) : string * string :=
  match s with
  | EmptyString => (EmptyString, EmptyString)
  | String c rest =>
      if IS_WHITE c || Ascii.eqb c "=" then (EmptyString, s)
      else let '(k, r) := split_key rest in (String c k, r)
  end.

(** [name = line; while (!IS_WHITE( *line ) && *line != '\0') line++;] *)
Fixpoint split_name (s : string) : string * string :=
  match s with
  | EmptyString => (EmptyString, EmptyString)
  | String c rest =>
      if IS_WHITE c then (EmptyString, s)
      else let '(k, r) := split_name rest in (String c k, r)
  end.

(** [buf[n] = '\0'] *)
Fixpoint poke_nul (n : nat) (buf : string) : string :=
  match n, buf with
  | _, EmptyString => EmptyString
  | O, String _ rest => String NUL rest
  | S n', String c rest => String c (poke_nul n' rest)
  end.

(** Is the value of an assignment wrapped in a pair of equal quotes?
    [len > 0 && (( *line == '"' && line[len-1] == '"') ||
                 ( *line == '\'' && line[len-1] == '\''))] *)
Definition is_quoted (value : string) : bool :=
  match last_char value with
  | None => false
  | Some l =>
      (Ascii.eqb (head_char value) DQUOTE && Ascii.eqb l DQUOTE)
      || (Ascii.eqb (head_char value) SQUOTE && Ascii.eqb l SQUOTE)
  end.

(** The value handed to the key-value callback, and the [quoted] flag:
    [line[len-1] = '\0'; line = str_unescape(line+1)] for a quoted value,
    [expand_environment_vars(line)] otherwise. *)
Definition assignment_value (getenv : string -> option string) (value : string)
  : string * bool :=
  if is_quoted value then (str_unescape (drop_last (str_drop 1 value)), true)
  else (expand_environment_vars getenv value, false).

(** The classification of a logical line, before any state is consulted:
    the branches of the [if] chain of [settings_read_i]. *)
Inductive line_event :=
| Include (pattern : string) (tolerant : bool)
| Assignment (key value : string) (quoted : bool)
| SectionOpen (type name : string)
| SectionClose
| Malformed.                                (* "Expecting '='" *)

(** [line] is the C string the dispatcher works on, [input] the current frame
    (for [fix_relative_path]).  Also returns whether a white character
    followed the key (it is overwritten by a NUL) and the length of the key. *)
Definition classify (getenv : string -> option string) (input : input_stack)
    (line : string) : line_event * bool * nat :=
  let '(key_part, rest) := split_key line in
  let white_after := IS_WHITE (head_char rest) in
  (* [key] as a C string: cut by the NUL only when a white character follows *)
  let key := if white_after then key_part else line in
  let line := skip_white rest in
  let ev :=
    if String.eqb key "!include_try" || String.eqb key "!include" then
      Include (fix_relative_path line input) (String.eqb key "!include_try")
    else if Ascii.eqb (head_char line) "=" then
      let value := skip_white (str_drop 1 line) in
      let '(v, quoted) := assignment_value getenv value in
      Assignment key_part v quoted
    else if negb (String.eqb key "}") || negb (Ascii.eqb (head_char line) NUL) then
      let '(name, line) :=
        if Ascii.eqb (head_char line) "{" then (EmptyString, line)
        else
          let '(name, after) := split_name line in
          (name, skip_white after) in
      if Ascii.eqb (head_char line) "{" then SectionOpen key_part name
      else Malformed
    else SectionClose in
  (ev, white_after, String.length key_part).

(** ** The reader *)

(** One invocation of a consumer callback. *)
Inductive call :=
| Call_kv (key value : string)            (* callback(key, value, context) *)
| Call_sect_open (type name : string)     (* sect_callback(type, name, context, &errormsg) *)
| Call_sect_close.                        (* sect_callback(NULL, NULL, context, &errormsg) *)

(** The two callbacks over a context of type [C].  [callback] returns the new
    context and its error message; [sect_callback], which may be NULL, gets
    [Some (type, name)] on an opening and [None] on a closing line and returns
    the new context, its boolean result and what it stored in [errormsg]. *)
Record callbacks (C : Type) := {
  callback : string -> string -> C -> C * option string;
  sect_callback : option (option (string * string) -> C -> C * bool * option string)
}.
Arguments callback {C} _ _ _ _.
Arguments sect_callback {C} _.

(** The local variables of [settings_read_i] that live across iterations,
    with the context and the ghost logs. *)
Record reader (C : Type) := {
  input : list input_stack;          (* [input], then [input->prev], ... *)
  full_line : string;                (* the buffer, which may hold NUL bytes *)
  section : string;                  (* what is left of the selector *)
  next_section : option string;
  skip : Z;
  sections : Z;
  root_section : Z;
  last_section_path : option string;
  last_section_line : Z;
  context : C;
  calls : list call;                 (* ghost: callback invocations, in order *)
  events : list line_event;          (* ghost: classified logical lines, in order *)
  warnings : list (string * Z)       (* ghost: path and line of each i_warning *)
}.
Arguments input {C} _.
Arguments full_line {C} _.
Arguments section {C} _.
Arguments next_section {C} _.
Arguments skip {C} _.
Arguments sections {C} _.
Arguments root_section {C} _.
Arguments last_section_path {C} _.
Arguments last_section_line {C} _.
Arguments context {C} _.
Arguments calls {C} _.
Arguments events {C} _.
Arguments warnings {C} _.

(** How a call of [settings_read_i] ends. *)
Inductive verdict :=
| Success                        (* returns TRUE *)
| Failure (error_r : string)     (* returns FALSE, with the message stored *)
| Panic                          (* an [i_assert] fails *)
| Undefined.                     (* a read outside the line buffer *)

Inductive step_result (C : Type) :=
| Running (st : reader C)                 (* next turn of the loop *)
| Finished (st : reader C) (v : verdict).
Arguments Running {C} st.
Arguments Finished {C} st v.

Definition null_path (p : option string) : string :=
  match p with
  | Some s => s
  | None => "(null)"
  end.

(** ["Error in configuration file %s line %d: %s"] for the frame on top. *)
Definition error_message (inputs : list input_stack) (errormsg : string) : string :=
  match inputs with
  | top :: _ =>
      "Error in configuration file " ++ path top ++ " line "
        ++ dec (int_of_uint (linenum top)) ++ ": " ++ errormsg
  | [] => errormsg
  end.

(** [SECTION_ERRORMSG] *)
Definition section_errormsg (errormsg : string) (pth : option string) (line : Z)
  : string :=
  errormsg ++ " (section changed in " ++ null_path pth ++ " at line " ++ dec line ++ ")".

Section Reader.

Context {C : Type}.
Variable w : world.
Variable cb : callbacks C.

(** The end of a turn of the loop: [if (errormsg != NULL) { ...; break; }
    str_truncate(full_line, 0);] *)
Definition end_of_turn (st : reader C) (errormsg : option string) : step_result C :=
  match errormsg with
  | Some msg => Finished st (Failure (error_message (input st) msg))
  | None =>
      Running {| input := input st; full_line := EmptyString;
                 section := section st; next_section := next_section st;
                 skip := skip st; sections := sections st;
                 root_section := root_section st;
                 last_section_path := last_section_path st;
                 last_section_line := last_section_line st;
                 context := context st; calls := calls st;
                 events := events st; warnings := warnings st |}
  end.

(** The top frame, for [input->path] and [input->linenum]. *)
Definition top_path (st : reader C) : option string :=
  match input st with
  | top :: _ => Some (path top)
  | [] => None
  end.

Definition top_linenum (st : reader C) : Z :=
  match input st with
  | top :: _ => int_of_uint (linenum top)
  | [] => 0
  end.

(** Branch a) of the dispatcher. *)
Definition do_assignment (st : reader C) (key value : string) : step_result C :=
  if 0 <? skip st then end_of_turn st None
  else
    let '(ctx, errormsg) := callback cb key value (context st) in
    end_of_turn
      {| input := input st; full_line := full_line st;
         section := section st; next_section := next_section st;
         skip := skip st; sections := sections st;
         root_section := root_section st;
         last_section_path := last_section_path st;
         last_section_line := last_section_line st;
         context := ctx; calls := calls st ++ [Call_kv key value];
         events := events st; warnings := warnings st |}
      errormsg.

(** Branch b) of the dispatcher, once the line is known to end in ['{']. *)
Definition do_section_open (st : reader C) (key name : string) : step_result C :=
  let sections' := sections st + 1 in
  (* the selector *)
  let '(section', next_section', skip0, root_section') :=
    match next_section st with
    | Some next =>
        if String.eqb next name then
          let section' := str_drop (String.length next) (section st) in
          if Ascii.eqb (head_char section') NUL then
            (section', None, 0, sections')
          else
            (* i_assert( *section == '/' ) holds: [next] was cut at a '/' *)
            let section' := str_drop 1 section' in
            (section', Some (t_strcut section' "/"), skip st, root_section st)
        else (section st, Some next, skip st, root_section st)
    | None => (section st, None, skip st, root_section st)
    end in
  let '(skip', ctx, new_calls, errormsg) :=
    if 0 <? skip0 then (skip0 + 1, context st, [], None)
    else
      match sect_callback cb with
      | None => (1, context st, [], None)
      | Some sect =>
          let '(ctx, accepted, errormsg) := sect (Some (key, name)) (context st) in
          let errormsg :=
            match errormsg with
            | Some msg =>
                if negb (last_section_line st =? 0) then
                  Some (section_errormsg msg (last_section_path st)
                                         (last_section_line st))
                else Some msg
            | None => None
            end in
          ((if accepted then 0 else 1), ctx, [Call_sect_open key name], errormsg)
      end in
  end_of_turn
    {| input := input st; full_line := full_line st;
       section := section'; next_section := next_section';
       skip := skip'; sections := sections';
       root_section := root_section';
       last_section_path := top_path st;
       last_section_line := top_linenum st;
       context := ctx; calls := calls st ++ new_calls;
       events := events st; warnings := warnings st |}
    errormsg.

(** Branch c) of the dispatcher. *)
Definition do_section_close (st : reader C) : step_result C :=
  if sections st =? 0 then end_of_turn st (Some "Unexpected '}'")
  else if 0 <? skip st then
    end_of_turn
      {| input := input st; full_line := full_line st;
         section := section st; next_section := next_section st;
         skip := skip st - 1; sections := sections st - 1;
         root_section := root_section st;
         last_section_path := top_path st;
         last_section_line := top_linenum st;
         context := context st; calls := calls st;
         events := events st; warnings := warnings st |}
      None
  else
    match sect_callback cb with
    | None => Finished st Panic          (* i_assert(sect_callback != NULL) *)
    | Some sect =>
        let '(ctx, _, errormsg) := sect None (context st) in
        let called :=
          {| input := input st; full_line := full_line st;
             section := section st; next_section := next_section st;
             skip := skip st; sections := sections st;
             root_section := root_section st;
             last_section_path := last_section_path st;
             last_section_line := last_section_line st;
             context := ctx; calls := calls st ++ [Call_sect_close];
             events := events st; warnings := warnings st |} in
        match errormsg with
        | None =>
            if root_section st =? sections st then
              Finished called Success    (* we found the section, now quit *)
            else
              end_of_turn
                {| input := input st; full_line := full_line st;
                   section := section st; next_section := next_section st;
                   skip := skip st; sections := sections st - 1;
                   root_section := root_section st;
                   last_section_path := top_path st;
                   last_section_line := top_linenum st;
                   context := ctx; calls := calls st ++ [Call_sect_close];
                   events := events st; warnings := warnings st |}
                None
        | Some msg =>
            end_of_turn
              {| input := input st; full_line := full_line st;
                 section := section st; next_section := next_section st;
                 skip := skip st; sections := sections st - 1;
                 root_section := root_section st;
                 last_section_path := top_path st;
                 last_section_line := top_linenum st;
                 context := ctx; calls := calls st ++ [Call_sect_close];
                 events := events st; warnings := warnings st |}
              (Some msg)
        end
    end.

Definition with_input (st : reader C) (inputs : list input_stack)
    (buffer : string) : reader C :=
  {| input := inputs; full_line := buffer;
     section := section st; next_section := next_section st;
     skip := skip st; sections := sections st;
     root_section := root_section st;
     last_section_path := last_section_path st;
     last_section_line := last_section_line st;
     context := context st; calls := calls st;
     events := events st; warnings := warnings st |}.

Definition with_logs (st : reader C) (evs : list line_event)
    (warns : list (string * Z)) : reader C :=
  {| input := input st; full_line := full_line st;
     section := section st; next_section := next_section st;
     skip := skip st; sections := sections st;
     root_section := root_section st;
     last_section_path := last_section_path st;
     last_section_line := last_section_line st;
     context := context st; calls := calls st;
     events := events st ++ evs; warnings := warnings st ++ warns |}.

(** The warning of the comment scan, at the frame's path and line. *)
Definition ambiguous_hash (top : input_stack) (warn : bool) : list (string * Z) :=
  if warn then [(path top, linenum top)] else [].

(** The frame after [i_stream_read_next_line] handed out a line and
    [input->linenum++]. *)
Definition advance (top : input_stack) (rest : list string) : input_stack :=
  {| path := path top; input_lines := rest; linenum := uint_incr (linenum top) |}.

(** The dispatcher: the [if] chain on the logical line [line], read while
    [top] is the current frame.  [buffer] is [full_line] after the line was
    appended to it (empty when the buffer is not in use), [st] has it as its
    [full_line]. *)
Definition dispatch (st : reader C) (top : input_stack) (buffer line : string)
  : step_result C :=
  let '(ev, white_after, key_len) := classify (getenv w) top line in
  let st := with_logs st [ev] [] in
  match ev with
  | Include pattern tolerant =>
      match settings_include w pattern (input st) tolerant with
      | (inputs, None) =>
          (* goto prevfile: the buffer is not truncated and keeps the NUL
             written after the key *)
          Running (with_input st inputs
                     (if white_after then poke_nul key_len buffer else buffer))
      | (inputs, Some errormsg) =>
          end_of_turn (with_input st inputs buffer) (Some errormsg)
      end
  | Assignment key value _ => do_assignment st key value
  | SectionOpen key name => do_section_open st key name
  | Malformed => end_of_turn st (Some "Expecting '='")
  | SectionClose => do_section_close st
  end.

(** One turn of the [while] loop on the physical line [raw]; [top] is the
    frame read from, [rest] its lines after [raw], [prev] the frames below. *)
Definition turn (st : reader C) (top : input_stack) (prev : list input_stack)
    (raw : string) (rest : list string) : step_result C :=
  let top := advance top rest in
  let st := with_input st (top :: prev) (full_line st) in
  match scan_line raw with
  | Blank => Running st
  | ReadsBeforeLine => Finished st Undefined
  | Continues part warn =>
      (* str_append_data(full_line, line, len); str_append_c(full_line, ' ') *)
      Running (with_logs (with_input st (input st) (full_line st ++ part ++ " "))
                         [] (ambiguous_hash top warn))
  | Logical line warn =>
      (* if (str_len(full_line) > 0) { str_append(full_line, line);
                                       line = str_c_modifiable(full_line); } *)
      let in_use := negb (String.eqb (full_line st) EmptyString) in
      let buffer := if in_use then full_line st ++ line else EmptyString in
      let line := if in_use then c_str buffer else line in
      dispatch (with_logs (with_input st (input st) buffer)
                          [] (ambiguous_hash top warn))
               top buffer line
  end.

(** One turn of the loop, or the pop of an exhausted frame:
    [i_stream_destroy(&input->input); input = input->prev;
     if (line == NULL && input != NULL) goto prevfile;
     return errormsg == NULL;] *)
Definition step (st : reader C) : step_result C :=
  match input st with
  | [] => Finished st Success
  | top :: prev =>
      match input_lines top with
      | raw :: rest => turn st top prev raw rest
      | [] =>
          match prev with
          | [] => Finished (with_input st [] (full_line st)) Success
          | _ :: _ => Running (with_input st prev (full_line st))
          end
      end
  end.

(** The loop, for at most [fuel] turns and pops. *)
Fixpoint run (fuel : nat) (st : reader C) : option (reader C * verdict) :=
  match fuel with
  | O => None
  | S fuel' =>
      match step st with
      | Running st' => run fuel' st'
      | Finished st' v => Some (st', v)
      end
  end.

(** The state at the label [prevfile], first time round.  The selector is a
    C string: what the reader sees of [sect] ends at its first NUL. *)
Definition initial (pth : string) (lines : list string) (sect : option string)
    (ctx : C) : reader C :=
  {| input := [{| path := pth; input_lines := lines; linenum := 0 |}];
     full_line := EmptyString;
     section := match sect with Some s => c_str s | None => EmptyString end;
     next_section := match sect with
                     | Some s => Some (t_strcut (c_str s) "/")
                     | None => None
                     end;
     skip := match sect with Some _ => 1 | None => 0 end;
     sections := 0;
     root_section := 0;
     last_section_path := None;
     last_section_line := 0;
     context := ctx; calls := []; events := []; warnings := [] |}.

(** [settings_read_i(path, section, callback, sect_callback, context, error_r)]:
    the final state and the verdict, [None] when [fuel] turns were not enough
    to reach the [return]. *)
Definition settings_read_i (pth : string) (sect : option string) (ctx : C)
    (fuel : nat) : option (reader C * verdict) :=
  match file_open w pth with
  | OpenFailed e =>
      Some (initial pth [] sect ctx,
            Failure ("Can't open configuration file " ++ pth ++ ": " ++ strerror e))
  | Opened lines => run fuel (initial pth lines sect ctx)
  end.

End Reader.

(** ** Recording callbacks, for the scenarios *)

(** Callbacks over the unit context chosen by what they answer. *)
Definition answering (kv : string -> string -> option string)
    (sect : option (option (string * string) -> bool * option string))
  : callbacks unit :=
  {| callback := fun key value ctx => (ctx, kv key value);
     sect_callback :=
       match sect with
       | Some f => Some (fun arg ctx => let '(b, e) := f arg in (ctx, b, e))
       | None => None
       end |}.

(** Callbacks that accept everything. *)
Definition accept_all : callbacks unit :=
  answering (fun _ _ => None) (Some (fun _ => (true, None))).

(** A world with the given files, where every pattern matches itself when it
    names a file, and nothing otherwise, and with the given environment. *)
Fixpoint lookup_file (files : list (string * list string)) (pth : string)
  : option (list string) :=
  match files with
  | [] => None
  | (p, lines) :: files' => if String.eqb p pth then Some lines else lookup_file files' pth
  end.

Definition world_of (files : list (string * list string))
    (env : string -> option string) : world :=
  {| file_open := fun p => match lookup_file files p with
                           | Some lines => Opened lines
                           | None => OpenFailed ENOENT
                           end;
     HAVE_GLOB := true;
     glob := fun p => match lookup_file files p with
                      | Some _ => GlobOk [p]
                      | None => GLOB_NOMATCH
                      end;
     getenv := env |}.

Definition no_env : string -> option string := fun _ => None.

(** What a finished call is observed to have done. *)
Definition observed {C : Type} (r : option (reader C * verdict))
  : option (list call * verdict) :=
  match r with
  | Some (st, v) => Some (calls st, v)
  | None => None
  end.

(** ** Runs of several turns *)

(** [n] turns of the loop lead from [st] to [st'] without returning. *)
Inductive turns {C : Type} (w : world) (cb : callbacks C)
  : nat -> reader C -> reader C -> Prop :=
| turns_O st : turns w cb O st st
| turns_S n st st1 st' :
    step w cb st = Running st1 -> turns w cb n st1 st' -> turns w cb (S n) st st'.

(** ** Scenarios *)

Definition conf : string := "dovecot.conf".

(** A world whose only file is [conf]. *)
Definition single_file (lines : list string) : world :=
  world_of [(conf, lines)] no_env.

(** The verdict of a turn whose callback answered [errormsg] on line [n] of
    [conf]. *)
Definition verdict_at (n : Z) (errormsg : option string) : verdict :=
  match errormsg with
  | None => Success
  | Some msg =>
      Failure ("Error in configuration file " ++ conf ++ " line " ++ dec n ++ ": " ++ msg)
  end.

(** Two physical lines joined by a trailing backslash. *)
Definition continuation_lines : list string :=
  ["a = 1 \"; "   2 # trailing"].

(** A value whose opening quote is never closed. *)
Definition unterminated_line : string :=
  "a = " ++ String DQUOTE "abc".

(** A section opened and apparently closed on one line. *)
Definition one_line_section : list string := ["svc { key = v }"].

(** The same section written on three lines. *)
Definition three_line_section : list string := ["svc {"; "key = v"; "}"].

(** The section callback accepts everything, the key-value callback rejects
    everything with "nope". *)
Definition rejecting_kv : callbacks unit :=
  answering (fun _ _ => Some "nope") (Some (fun _ => (true, None))).

(** The section callback rejects the section [second] with "bad section". *)
Definition rejecting_second : callbacks unit :=
  answering (fun _ _ => None)
            (Some (fun arg =>
                     match arg with
                     | Some (type, _) =>
                         if String.eqb type "second" then (false, Some "bad section")
                         else (true, None)
                     | None => (true, None)
                     end)).

(** ** Predicates on strings used in the statements *)

(** Every character of [s] satisfies [p]. *)
Fixpoint str_forall (p : ascii -> bool) (s : string) : bool :=
  match s with
  | EmptyString => true
  | String c rest => p c && str_forall p rest
  end.

(** The text after a quote [q] that is never closed: no [q], no NUL, no ['$']
    in it, and a last character that is neither white nor a backslash. *)
Definition unclosed_tail (q : ascii) (t : string) : bool :=
  str_forall (fun c => negb (Ascii.eqb c q) && negb (Ascii.eqb c NUL)
                         && negb (Ascii.eqb c "$")) t
  && match last_char t with
     | Some l => negb (IS_WHITE l) && negb (Ascii.eqb l "\")
     | None => false
     end.

(** ** Representations of numbers, for the statements on [get_uint] *)

(** The character of the digit [d], for [0 <= d < 16]. *)
Definition digit_char (d : Z) : ascii :=
  if d <? 10 then ascii_of_nat (Z.to_nat (48 + d))
  else ascii_of_nat (Z.to_nat (87 + d)).

Fixpoint digits_string (ds : list Z) : string :=
  match ds with
  | [] => EmptyString
  | d :: ds' => String (digit_char d) (digits_string ds')
  end.

(** The number written by the digits [ds], most significant first, after
    the digits that made [acc]. *)
Definition positional (base : Z) (acc : Z) (ds : list Z) : Z :=
  fold_left (fun a d => a * base + d) ds acc.

(** All of [ds] are digits of base [base]. *)
Definition digits_of (base : Z) (ds : list Z) : bool :=
  forallb (fun d => (0 <=? d) && (d <? base)) ds.

(** Text after a number that does not go on as a number: empty, or starting
    with a character that is neither a digit of the base nor an [x]. *)
Definition number_ends (base : Z) (tail : string) : bool :=
  match tail with
  | EmptyString => true
  | String c _ =>
      match digit_value base c with
      | Some _ => false
      | None => negb (Ascii.eqb c "x" || Ascii.eqb c "X")
      end
  end.

(** The spec's "decimal or octal (0NNN) representation": a non-empty string
    of decimal digits (the octal forms are among them). *)
Definition decimal_or_octal (v : string) : bool :=
  negb (String.eqb v EmptyString)
  && str_forall (fun c => match digit_value 10 c with Some _ => true | None => false end) v.

Definition INT_MAX : Z := 2 ^ 31 - 1.

(** A world where [secret.conf] is matched by glob(3) but cannot be opened
    for want of permission. *)
Definition unreadable_world : world :=
  {| file_open := fun p =>
       if String.eqb p conf then Opened ["!include_try secret.conf"; "after = 1"]
       else if String.eqb p "secret.conf" then OpenFailed EACCES
       else OpenFailed ENOENT;
     HAVE_GLOB := true;
     glob := fun p =>
       if String.eqb p "secret.conf" then GlobOk ["secret.conf"] else GLOB_NOMATCH;
     getenv := no_env |}.

(** A world without files where glob(3) always returns [r]. *)
Definition glob_world (r : glob_result) : world :=
  {| file_open := fun _ => OpenFailed ENOENT;
     HAVE_GLOB := true;
     glob := fun _ => r;
     getenv := no_env |}.

(** The root frame of [conf], before any line was read. *)
Definition root_frame (lines : list string) : input_stack :=
  {| path := conf; input_lines := lines; linenum := 0 |}.

(** Two files whose first lines include each other. *)
Definition cycle_world (restA restB : list string) (env : string -> option string)
  : world :=
  world_of [("a.conf", "!include b.conf" :: restA);
            ("b.conf", "!include a.conf" :: restB)] env.

(** Two files that include each other, the second after an assignment. *)
Definition late_cycle_world : world :=
  world_of [("a.conf", ["!include b.conf"]);
            ("b.conf", ["x = 1"; "!include a.conf"])] no_env.

(** ** Files made of assignments *)

(** The key and value of a physical line that is an assignment by itself. *)
Definition as_assignment (env : string -> option string) (raw : string)
  : option (string * string) :=
  match scan_line raw with
  | Logical line _ =>
      match classify env (root_frame []) line with
      | (Assignment key value _, _, _) => Some (key, value)
      | _ => None
      end
  | _ => None
  end.

Definition all_assignments (env : string -> option string) (lines : list string)
  : bool :=
  forallb (fun raw => match as_assignment env raw with
                      | Some _ => true
                      | None => false
                      end) lines.

(** The calls made for the lines of such a file when nothing is skipped. *)
Definition file_calls (env : string -> option string) (lines : list string)
  : list call :=
  flat_map (fun raw => match as_assignment env raw with
                       | Some (key, value) => [Call_kv key value]
                       | None => []
                       end) lines.

(** The frame [settings_add_include] pushes for [pth]. *)
Definition pushed_frame (pth : string) (lines : list string) : input_stack :=
  {| path := pth; input_lines := lines; linenum := 0 |}.

(** A world where the pattern [conf.d/*.conf] expands to two files. *)
Definition two_matches : list (string * list string) :=
  [("conf.d/10-a.conf", ["a = 1"]); ("conf.d/20-b.conf", ["b = 2"])].

Definition glob_two_world : world :=
  {| file_open := fun p =>
       if String.eqb p conf then Opened ["!include conf.d/*.conf"; "last = 3"]
       else match lookup_file two_matches p with
            | Some lines => Opened lines
            | None => OpenFailed ENOENT
            end;
     HAVE_GLOB := true;
     glob := fun p =>
       if String.eqb p "conf.d/*.conf" then GlobOk (map fst two_matches)
       else GLOB_NOMATCH;
     getenv := no_env |}.

(** ** Environment expansion, as the specification words it

    "Each occurrence of [$ENV:NAME] that is either at the start of the string
    or preceded by whitespace is replaced by the environment's value of NAME,
    or by the empty string if unset.  NAME is terminated by the next space or
    end of string.  Other [$] characters are copied verbatim."

    The string is read once from left to right.  [boundary] tells whether the
    character read stands at the start or after a white character;
    [skipping] counts the characters of an [$ENV:NAME] that are still to be
    passed over. *)
Fixpoint substitute_env (getenv : string -> option string) (skipping : nat)
    (boundary : bool) (s : string) : string :=
  match s with
  | EmptyString => EmptyString
  | String c rest =>
      match skipping with
      | S n => substitute_env getenv n boundary rest
      | O =>
          if Ascii.eqb c "$" && boundary && String.prefix "ENV:" rest then
            let name := t_strcut (str_drop 4 rest) " " in
            match getenv name with
            | Some envval => envval
            | None => EmptyString
            end ++ substitute_env getenv (4 + String.length name) false rest
          else String c (substitute_env getenv O (IS_WHITE c) rest)
      end
  end.

Definition env_expanded (getenv : string -> option string) (value : string) : string :=
  substitute_env getenv O true value.

(** The spec's quoted value: wrapped in a pair of equal quote characters. *)
Definition wrapped_in (q : ascii) (inner : string) : string :=
  String q (inner ++ String q EmptyString).

(** Does the character after [prev] stand at the start of the value or after
    a white character? *)
Definition after_white (prev : option ascii) : bool :=
  match prev with
  | Some c => IS_WHITE c
  | None => true
  end.

(** The state a turn ends in, whether the loop goes on or not. *)
Definition state_of {C : Type} (r : step_result C) : reader C :=
  match r with
  | Running st => st
  | Finished st _ => st
  end.

(** ** Section depth *)

(** The running section depth after the classified lines [evs], from depth
    [d]; [None] as soon as a closing line would make it negative. *)
Fixpoint depth_after (d : Z) (evs : list line_event) : option Z :=
  match evs with
  | [] => Some d
  | SectionOpen _ _ :: evs' => depth_after (d + 1) evs'
  | SectionClose :: evs' => if d <? 1 then None else depth_after (d - 1) evs'
  | _ :: evs' => depth_after d evs'
  end.

Definition is_open (ev : line_event) : bool :=
  match ev with
  | SectionOpen _ _ => true
  | _ => false
  end.

Definition is_close (ev : line_event) : bool :=
  match ev with
  | SectionClose => true
  | _ => false
  end.

Definition count_opens (evs : list line_event) : nat := length (filter is_open evs).
Definition count_closes (evs : list line_event) : nat := length (filter is_close evs).

(** While the loop runs, the counter [sections] is the running depth of the
    lines classified so far, and it is not negative. *)
Definition depth_inv {C : Type} (st : reader C) : Prop :=
  depth_after 0 (events st) = Some (sections st) /\ 0 <= sections st.

(** ** Selectors *)

(** The last component of a slash-separated selector: the text after its last
    ['/'] ([acc] is what was read since the last ['/']). *)
Fixpoint last_component_from (acc : string) (s : string) : string :=
  match s with
  | EmptyString => acc
  | String c rest =>
      if Ascii.eqb c "/" then last_component_from EmptyString rest
      else last_component_from (acc ++ String c EmptyString) rest
  end.

Definition last_component (s : string) : string :=
  last_component_from EmptyString (c_str s).

Definition no_nul (s : string) : bool :=
  str_forall (fun c => negb (Ascii.eqb c NUL)) s.

(** While a component of the selector [sel] is still waited for: the
    component is the head of what is left of the selector, which ends like
    [sel]; no callback was invoked, and everything read so far was skipped. *)
Definition pending_inv {C : Type} (sel : string) (st : reader C) : Prop :=
  forall next,
    next_section st = Some next ->
    next = t_strcut (section st) "/"
    /\ no_nul (section st) = true
    /\ last_component_from EmptyString (section st) = last_component sel
    /\ calls st = []
    /\ skip st = sections st + 1
    /\ 0 <= sections st.

(** Once the selector is used up: with a section callback, the first call
    was the opening of a section named like the last component. *)
Definition matched_inv {C : Type} (sel : string) (cb : callbacks C) (st : reader C)
  : Prop :=
  next_section st = None ->
  sect_callback cb <> None ->
  exists type more, calls st = Call_sect_open type (last_component sel) :: more.

(** A file where the selector a/b meets a section named b that is not inside
    a section named a, before the nested one. *)
Definition sibling_lines : list string :=
  ["p a {"; "}"; "q b {"; "k = wrong"; "}"; "r a {"; "s b {"; "k = right"; "}"; "}"].

(** The file of the targeted scenario: [outer] and [inner] are section types,
    the section names are empty. *)
Definition typed_lines : list string :=
  ["outer {"; "inner {"; "k = 1"; "}"; "other {"; "k = 2"; "}"; "}"].

(** The same with [outer], [inner] and [other] as section names. *)
Definition named_lines : list string :=
  ["section outer {"; "section inner {"; "k = 1"; "}";
   "section other {"; "k = 2"; "}"; "}"].

(** ** Targeted and untargeted readers *)

(** The reader in the same state that knows of no target and counts the
    targeted section as its first one. *)
Definition detarget {C : Type} (st : reader C) : reader C :=
  {| input := input st; full_line := full_line st;
     section := section st; next_section := next_section st;
     skip := skip st; sections := sections st - (root_section st - 1);
     root_section := 0;
     last_section_path := last_section_path st;
     last_section_line := last_section_line st;
     context := context st; calls := calls st;
     events := events st; warnings := warnings st |}.

(** The reader is inside the targeted section, which was not skipped: the
    selector is used up, the depth is at least the one recorded for the
    target, and what is skipped lies deeper. *)
Definition inside_target {C : Type} (st : reader C) : Prop :=
  next_section st = None
  /\ 1 <= root_section st <= sections st
  /\ skip st <= sections st - root_section st.

(** A reader inside the section it was targeted at, at depth 2. *)
Definition targeted_inside (lines : list string) : reader unit :=
  {| input := [{| path := conf; input_lines := lines; linenum := 2 |}];
     full_line := EmptyString;
     section := EmptyString; next_section := None;
     skip := 0; sections := 2; root_section := 2;
     last_section_path := Some conf; last_section_line := 2;
     context := tt; calls := [Call_sect_open "section" "inner"];
     events := []; warnings := [] |}.

(** ** Finite file systems *)

(** Every file that can be opened is among [known]. *)
Definition finite_files (w : world) (known : list string) : Prop :=
  forall p lines, file_open w p = Opened lines -> In p known.

(** The invariant of the input stack: no two frames have the same path, and
    every frame is a known file. *)
Definition stack_ok (known : list string) (stack : list input_stack) : Prop :=
  NoDup (map path stack) /\ incl (map path stack) known.

(** The loop started in [st] reaches its [return]. *)
Definition halts {C : Type} (w : world) (cb : callbacks C) (st : reader C) : Prop :=
  exists n r, run w cb n st = Some r.

(** * Properties *)

(** ** Fuel *)

Section Fuel.

Context {C : Type}.
Variable w : world.
Variable cb : callbacks C.

(** A call that returns within [n] turns returns the same with more. *)
Lemma run_more_fuel (n m : nat) (st : reader C) (r : reader C * verdict) :
  run w cb n st = Some r -> (n <= m)%nat -> run w cb m st = Some r.
Proof.
  revert m st. induction n as [|n IH]; intros m st Hrun Hle.
  - discriminate.
  - destruct m as [|m]; [lia|].
    simpl in *. destruct (step w cb st) as [st'|st' v].
    + apply IH; [exact Hrun | lia].
    + exact Hrun.
Qed.

Lemma settings_read_i_more_fuel (n m : nat) pth sect ctx (r : reader C * verdict) :
  settings_read_i w cb pth sect ctx n = Some r -> (n <= m)%nat ->
  settings_read_i w cb pth sect ctx m = Some r.
Proof.
  unfold settings_read_i. destruct (file_open w pth); [|tauto].
  apply run_more_fuel.
Qed.

Lemma turns_run (n m : nat) (st st' : reader C) :
  turns w cb n st st' -> run w cb (n + m) st = run w cb m st'.
Proof.
  induction 1 as [|n st st1 st' Hstep _ IH]; [reflexivity|].
  simpl. rewrite Hstep. exact IH.
Qed.

Lemma turns_trans (n m : nat) (a b c : reader C) :
  turns w cb n a b -> turns w cb m b c -> turns w cb (n + m) a c.
Proof.
  induction 1 as [|n st st1 st' Hstep _ IH]; intros Hbc; [exact Hbc|].
  simpl. econstructor; [exact Hstep | auto].
Qed.

End Fuel.

(** ** Single turns *)

Section Turns.

Context {C : Type}.
Variable w : world.
Variable cb : callbacks C.

(** A turn on a line that is complete by itself, with an empty buffer. *)
Lemma step_logical (st : reader C) top prev raw rest line warn :
  input st = top :: prev ->
  input_lines top = raw :: rest ->
  scan_line raw = Logical line warn ->
  full_line st = EmptyString ->
  step w cb st
  = dispatch w cb
      (with_logs (with_input st (advance top rest :: prev) EmptyString)
                 [] (ambiguous_hash (advance top rest) warn))
      (advance top rest) EmptyString line.
Proof.
  intros Hin Hlines Hscan Hfull.
  unfold step. rewrite Hin, Hlines. unfold turn. rewrite Hscan.
  simpl full_line. rewrite Hfull. reflexivity.
Qed.

(** The pop of an exhausted frame that is not the root. *)
Lemma step_pop (st : reader C) top below prev :
  input st = top :: below :: prev ->
  input_lines top = [] ->
  step w cb st = Running (with_input st (below :: prev) (full_line st)).
Proof.
  intros Hin Hlines. unfold step. rewrite Hin, Hlines. reflexivity.
Qed.

(** The end of the root frame. *)
Lemma step_end (st : reader C) top :
  input st = [top] ->
  input_lines top = [] ->
  step w cb st = Finished (with_input st [] (full_line st)) Success.
Proof.
  intros Hin Hlines. unfold step. rewrite Hin, Hlines. reflexivity.
Qed.

(** The dispatcher on an assignment. *)
Lemma dispatch_assignment (st : reader C) top buffer line key value quoted wa kl :
  classify (getenv w) top line = (Assignment key value quoted, wa, kl) ->
  dispatch w cb st top buffer line
  = do_assignment cb (with_logs st [Assignment key value quoted] []) key value.
Proof.
  intros Hcl. unfold dispatch. rewrite Hcl. reflexivity.
Qed.

End Turns.

(** ** What a turn leaves alone *)

(** Splits the hypothesis [H] along every [match] it goes through. *)
Ltac split_matches H :=
  repeat match type of H with
         | context [match ?x with _ => _ end] => destruct x eqn:?
         end.

(** Turns the boolean comparisons among the hypotheses into propositions. *)
Ltac z_bools :=
  repeat match goal with
         | H : (_ =? _) = false |- _ => apply Z.eqb_neq in H
         | H : (_ =? _) = true |- _ => apply Z.eqb_eq in H
         | H : (_ <? _) = false |- _ => apply Z.ltb_ge in H
         | H : (_ <? _) = true |- _ => apply Z.ltb_lt in H
         end.

(** Unfolds a turn in [H] down to its last case. *)
Ltac turn_cases H :=
  unfold step, turn, dispatch, do_assignment, do_section_open, do_section_close,
    end_of_turn in H;
  split_matches H.

(** Splits the equations that [turn_cases] leaves among the hypotheses. *)
Ltac split_hyps :=
  repeat match goal with
         | H : context [match ?x with _ => _ end] |- _ => destruct x eqn:?
         | H : (_, _) = (_, _) |- _ => inversion H; clear H; subst
         end.

Section Frames.

Context {C : Type}.
Variable w : world.
Variable cb : callbacks C.

Lemma settings_add_include_extends pth stack ignore_errors stack' r :
  settings_add_include w pth stack ignore_errors = (stack', r) ->
  exists pushed, stack' = (pushed ++ stack)%list.
Proof.
  unfold settings_add_include. intros H. split_matches H;
    injection H as <- <-; solve [exists []; reflexivity | eexists [_]; reflexivity].
Qed.

Lemma include_paths_extends pathv :
  forall stack ignore_errors stack' r,
    include_paths w pathv stack ignore_errors = (stack', r) ->
    exists pushed, stack' = (pushed ++ stack)%list.
Proof.
  induction pathv as [|p pathv IH]; intros stack ignore_errors stack' r H.
  - injection H as <- <-. exists []. reflexivity.
  - simpl in H.
    destruct (settings_add_include w p stack ignore_errors) as [stack1 [err|]] eqn:Hadd.
    + injection H as <- <-. eapply settings_add_include_extends. exact Hadd.
    + destruct (settings_add_include_extends _ _ _ _ _ Hadd) as [pushed1 ->].
      destruct (IH _ _ _ _ H) as [pushed2 ->].
      exists (pushed2 ++ pushed1)%list. rewrite app_assoc. reflexivity.
Qed.

(** An include only pushes frames: the stack it was given stays below. *)
Lemma settings_include_extends pattern stack ignore_errors stack' r :
  settings_include w pattern stack ignore_errors = (stack', r) ->
  exists pushed, stack' = (pushed ++ stack)%list.
Proof.
  unfold settings_include. intros H.
  destruct (HAVE_GLOB w).
  - destruct (glob w pattern) eqn:Hglob;
      try (eapply include_paths_extends; exact H);
      split_matches H; injection H as <- <-; exists []; reflexivity.
  - eapply settings_add_include_extends. exact H.
Qed.

Lemma end_of_turn_running (st st' : reader C) errormsg :
  end_of_turn st errormsg = Running st' ->
  errormsg = None /\ st' = with_input st (input st) EmptyString.
Proof.
  unfold end_of_turn. destruct errormsg; [discriminate|].
  intros H. injection H as <-. split; reflexivity.
Qed.

Lemma do_assignment_input (st st' : reader C) key value :
  do_assignment cb st key value = Running st' -> input st' = input st.
Proof.
  unfold do_assignment. intros H. split_matches H;
    apply end_of_turn_running in H; destruct H as [_ ->]; reflexivity.
Qed.

Lemma do_section_open_input (st st' : reader C) key name :
  do_section_open cb st key name = Running st' -> input st' = input st.
Proof.
  unfold do_section_open. intros H. split_matches H;
    apply end_of_turn_running in H; destruct H as [_ ->]; reflexivity.
Qed.

Lemma do_section_close_input (st st' : reader C) :
  do_section_close cb st = Running st' -> input st' = input st.
Proof.
  unfold do_section_close. intros H. split_matches H; try discriminate H;
    apply end_of_turn_running in H; destruct H as [_ ->]; reflexivity.
Qed.

(** The frames below the current one are out of reach of a turn: either the
    current frame was exhausted and is popped, or a line was read from it and
    the frames pushed by that line, if any, lie above it. *)
Lemma step_stack_discipline (st st' : reader C) top prev :
  input st = top :: prev ->
  step w cb st = Running st' ->
  (input_lines top = [] /\ input st' = prev)
  \/ (exists raw rest pushed,
         input_lines top = raw :: rest
         /\ input st' = (pushed ++ advance top rest :: prev)%list).
Proof.
  intros Hin Hstep. unfold step in Hstep. rewrite Hin in Hstep.
  destruct (input_lines top) as [|raw rest] eqn:Hlines.
  - left. split; [reflexivity|].
    destruct prev; [discriminate Hstep|]. injection Hstep as <-. reflexivity.
  - right. exists raw, rest.
    enough (Hgoal : exists pushed,
               input st' = (pushed ++ advance top rest :: prev)%list)
      by (destruct Hgoal as [pushed Hp]; exists pushed; split;
          [reflexivity | exact Hp]).
    unfold turn in Hstep.
    destruct (scan_line raw) as [|part warn|line warn|].
    + injection Hstep as <-. exists []. reflexivity.
    + injection Hstep as <-. exists []. reflexivity.
    + unfold dispatch in Hstep.
      match type of Hstep with
      | context [classify ?e ?t ?l] => destruct (classify e t l) as [[ev wa] kl]
      end.
      destruct ev as [pattern tolerant|key value quoted|key name| |].
      * simpl input in Hstep.
        destruct (settings_include w pattern (advance top rest :: prev) tolerant)
          as [inputs [err|]] eqn:Hinc.
        -- discriminate Hstep.
        -- injection Hstep as <-.
           destruct (settings_include_extends _ _ _ _ _ Hinc) as [pushed ->].
           exists pushed. reflexivity.
      * apply do_assignment_input in Hstep. exists []. exact Hstep.
      * apply do_section_open_input in Hstep. exists []. exact Hstep.
      * apply do_section_close_input in Hstep. exists []. exact Hstep.
      * discriminate Hstep.
    + discriminate Hstep.
Qed.

End Frames.

(** ** Line continuation *)

(** C6, as stated, does not hold: the value delivered for the two lines is
    not "1  2" with two spaces. *)
Lemma continuation_not_two_spaces :
  observed (settings_read_i (single_file continuation_lines) accept_all conf None tt 3)
  <> Some ([Call_kv "a" "1  2"], Success).
Proof. vm_compute. discriminate. Qed.

(** C6, amended: the two physical lines ['a = 1 \'] and ['   2 # trailing']
    make exactly one call of the key-value callback, with key "a" and value
    "1 2" (one space: the white space before the backslash and at the start of
    the second line is dropped, the join adds one space), whatever the
    callbacks are; the call returns what the callback answers. *)
Theorem continuation_one_space :
  forall (C : Type) (cb : callbacks C) (ctx : C) (fuel : nat),
    (3 <= fuel)%nat ->
    exists st,
      settings_read_i (single_file continuation_lines) cb conf None ctx fuel
      = Some (st, verdict_at 2 (snd (callback cb "a" "1 2" ctx)))
      /\ calls st = [Call_kv "a" "1 2"]
      /\ context st = fst (callback cb "a" "1 2" ctx).
Proof.
  intros C [kv sect] ctx fuel Hfuel. simpl.
  destruct (kv "a" "1 2" ctx) as [ctx' [msg|]] eqn:Hkv;
    (eexists; split;
     [ eapply settings_read_i_more_fuel; [|exact Hfuel];
       cbn; rewrite Hkv; reflexivity
     | split; reflexivity ]).
Qed.

Lemma continuation_one_space_witness :
  exists st,
    settings_read_i (single_file continuation_lines) accept_all conf None tt 3
    = Some (st, Success)
    /\ calls st = [Call_kv "a" "1 2"] /\ context st = tt.
Proof.
  apply (continuation_one_space unit accept_all tt 3). lia.
Defined.

(** ** Errors of the key-value callback *)

(** The key-value callback's error goes out as it is, under the path and the
    line of the frame being read. *)
Lemma do_assignment_error {C : Type} (cb : callbacks C) (st : reader C)
    (key value msg : string) (ctx' : C) :
  skip st <= 0 ->
  callback cb key value (context st) = (ctx', Some msg) ->
  exists st',
    do_assignment cb st key value
    = Finished st' (Failure (error_message (input st) msg))
    /\ calls st' = (calls st ++ [Call_kv key value])%list.
Proof.
  intros Hskip Hcb. unfold do_assignment.
  destruct (0 <? skip st) eqn:Hlt; [apply Z.ltb_lt in Hlt; lia|].
  rewrite Hcb. simpl. eexists. split; reflexivity.
Qed.




(** ** Strings *)

Lemma c_str_id (s : string) :
  str_forall (fun c => negb (Ascii.eqb c NUL)) s = true -> c_str s = s.
Proof.
  induction s as [|c s IH]; simpl; [reflexivity|].
  intros H. apply andb_true_iff in H. destruct H as [Hc Hs].
  destruct (Ascii.eqb c NUL); [discriminate Hc|].
  rewrite IH; auto.
Qed.

Lemma str_forall_weaken (p q : ascii -> bool) (s : string) :
  (forall c, p c = true -> q c = true) ->
  str_forall p s = true -> str_forall q s = true.
Proof.
  intros Hpq. induction s as [|c s IH]; simpl; [reflexivity|].
  intros H. apply andb_true_iff in H. destruct H as [Hc Hs].
  rewrite (Hpq c Hc), (IH Hs). reflexivity.
Qed.

Lemma rtrim_id (s : string) (l : ascii) :
  last_char s = Some l -> IS_WHITE l = false -> rtrim s = s.
Proof.
  induction s as [|c s IH]; [discriminate|].
  intros Hlast Hl. destruct s as [|d s].
  - simpl in *. injection Hlast as ->. rewrite Hl. reflexivity.
  - change (last_char (String c (String d s))) with (last_char (String d s)) in Hlast.
    change (rtrim (String c (String d s)))
      with (match rtrim (String d s) with
            | EmptyString => if IS_WHITE c then EmptyString else String c EmptyString
            | r => String c r
            end).
    rewrite (IH Hlast Hl). reflexivity.
Qed.

Lemma strchr_absent (s : string) (c : ascii) :
  str_forall (fun d => negb (Ascii.eqb d c)) s = true -> strchr s c = None.
Proof.
  induction s as [|d s IH]; simpl; [reflexivity|].
  intros H. apply andb_true_iff in H. destruct H as [Hd Hs].
  destruct (Ascii.eqb d c); [discriminate Hd|].
  rewrite (IH Hs). reflexivity.
Qed.

(** Inside a span opened by [q], text without [q] is kept to its end and no
    warning is logged: the scan stops at the end of the line. *)
Lemma strip_comment_unclosed (q : ascii) (t : string) :
  str_forall (fun c => negb (Ascii.eqb c q)) t = true ->
  forall prev,
    strip_comment (InQuote q) prev t = (t, false)
    /\ strip_comment (Escaped q) prev t = (t, false).
Proof.
  induction t as [|c t IH]; intros H prev; [split; reflexivity|].
  simpl in H. apply andb_true_iff in H. destruct H as [Hc Ht].
  destruct (IH Ht c) as [IHq IHe].
  split; simpl.
  - destruct (Ascii.eqb c q); [discriminate Hc|].
    destruct (Ascii.eqb c "\" && negb (Ascii.eqb (head_char t) NUL)).
    + rewrite IHe. reflexivity.
    + rewrite IHq. reflexivity.
  - rewrite IHq. reflexivity.
Qed.

(** ** Unterminated quotes *)

Lemma last_char_unclosed (q : ascii) (t : string) :
  unclosed_tail q t = true ->
  exists l, last_char t = Some l /\ IS_WHITE l = false
            /\ Ascii.eqb l "\" = false /\ Ascii.eqb l q = false.
Proof.
  unfold unclosed_tail. intros H. apply andb_true_iff in H. destruct H as [Hall Hlast].
  destruct (last_char t) as [l|] eqn:Hl; [|discriminate Hlast].
  apply andb_true_iff in Hlast. destruct Hlast as [Hw Hb].
  exists l. repeat split.
  - destruct (IS_WHITE l); [discriminate Hw | reflexivity].
  - destruct (Ascii.eqb l "\"); [discriminate Hb | reflexivity].
  - clear Hw Hb. revert l Hl. induction t as [|c t IH]; intros l Hl; [discriminate|].
    simpl in Hall. apply andb_true_iff in Hall. destruct Hall as [Hc Ht].
    destruct t as [|d t].
    + simpl in Hl. injection Hl as <-.
      destruct (Ascii.eqb c q); [discriminate Hc | reflexivity].
    + apply IH; assumption.
Qed.

(** The scanner leaves a line with an unclosed quote as it is. *)
Lemma scan_line_unclosed (q : ascii) (t : string) :
  q = DQUOTE \/ q = SQUOTE ->
  unclosed_tail q t = true ->
  scan_line ("a = " ++ String q t) = Logical ("a = " ++ String q t) false.
Proof.
  intros Hq Ht.
  destruct (last_char_unclosed q t Ht) as [l [Hl [Hw [Hb Hlq]]]].
  unfold unclosed_tail in Ht. apply andb_true_iff in Ht. destruct Ht as [Hall _].
  assert (Hnul : c_str ("a = " ++ String q t) = "a = " ++ String q t).
  { apply c_str_id. simpl. destruct Hq; subst q; simpl;
      (eapply str_forall_weaken; [|exact Hall]); intros c Hc;
      apply andb_true_iff in Hc; destruct Hc as [Hc _];
      apply andb_true_iff in Hc; destruct Hc as [_ Hc]; exact Hc. }
  assert (Hq' : str_forall (fun c => negb (Ascii.eqb c q)) t = true).
  { eapply str_forall_weaken; [|exact Hall]. intros c Hc.
    apply andb_true_iff in Hc; destruct Hc as [Hc _].
    apply andb_true_iff in Hc; destruct Hc as [Hc _]. exact Hc. }
  assert (Hlast : last_char ("a = " ++ String q t) = Some l).
  { simpl. destruct t; [discriminate Hl | exact Hl]. }
  unfold scan_line. rewrite Hnul.
  assert (Hstrip : strip_comment Outside NUL ("a = " ++ String q t)
                   = ("a = " ++ String q t, false)).
  { destruct (strip_comment_unclosed q t Hq' q) as [Hin _].
    destruct Hq; subst q; simpl; simpl in Hin; rewrite Hin; reflexivity. }
  change (skip_white ("a = " ++ String q t)) with ("a = " ++ String q t).
  change (Ascii.eqb (head_char ("a = " ++ String q t)) "#"
          || Ascii.eqb (head_char ("a = " ++ String q t)) NUL) with false.
  cbv iota. rewrite Hstrip.
  rewrite (rtrim_id _ l Hlast Hw). rewrite Hlast.
  destruct l as [[] [] [] [] [] [] [] []]; try reflexivity; discriminate Hb.
Qed.

Lemma assignment_value_unclosed env (q : ascii) (t : string) :
  q = DQUOTE \/ q = SQUOTE ->
  unclosed_tail q t = true ->
  assignment_value env (String q t) = (String q t, false).
Proof.
  intros Hq Ht.
  destruct (last_char_unclosed q t Ht) as [l [Hl [_ [_ Hlq]]]].
  unfold unclosed_tail in Ht. apply andb_true_iff in Ht. destruct Ht as [Hall _].
  assert (Hlast : last_char (String q t) = Some l).
  { simpl. destruct t; [discriminate Hl | exact Hl]. }
  assert (Hdollar : strchr (String q t) "$" = None).
  { apply strchr_absent. simpl. apply andb_true_iff. split.
    - destruct Hq; subst q; reflexivity.
    - eapply str_forall_weaken; [|exact Hall]. intros c Hc.
      apply andb_true_iff in Hc. destruct Hc as [_ Hc]. exact Hc. }
  unfold assignment_value, is_quoted. rewrite Hlast.
  unfold expand_environment_vars. rewrite Hdollar.
  destruct Hq; subst q; simpl head_char; simpl in Hlq; rewrite Hlq; reflexivity.
Qed.

Lemma classify_unclosed env input (q : ascii) (t : string) :
  q = DQUOTE \/ q = SQUOTE ->
  unclosed_tail q t = true ->
  classify env input ("a = " ++ String q t)
  = (Assignment "a" (String q t) false, true, 1%nat).
Proof.
  intros Hq Ht. unfold classify.
  change (split_key ("a = " ++ String q t)) with ("a", " = " ++ String q t).
  cbv iota beta.
  change (IS_WHITE (head_char (" = " ++ String q t))) with true.
  cbv iota.
  change (skip_white (" = " ++ String q t)) with ("= " ++ String q t).
  change (String.eqb "a" "!include_try" || String.eqb "a" "!include") with false.
  change (Ascii.eqb (head_char ("= " ++ String q t)) "=") with true.
  cbv iota.
  assert (Hv : skip_white (str_drop 1 ("= " ++ String q t)) = String q t)
    by (destruct Hq; subst q; reflexivity).
  rewrite Hv, (assignment_value_unclosed env q t Hq Ht). reflexivity.
Qed.




(** ** Numbers *)

Lemma digit_cases (d : Z) :
  0 <= d < 16 ->
  d = 0 \/ d = 1 \/ d = 2 \/ d = 3 \/ d = 4 \/ d = 5 \/ d = 6 \/ d = 7 \/
  d = 8 \/ d = 9 \/ d = 10 \/ d = 11 \/ d = 12 \/ d = 13 \/ d = 14 \/ d = 15.
Proof. lia. Qed.

Ltac each_digit d H :=
  let K := fresh "K" in
  pose proof (digit_cases d H) as K;
  repeat (destruct K as [K|K]; [subst d|]); [.. | subst d].

Lemma digit_value_char (base d : Z) :
  0 <= d < base -> base <= 16 -> digit_value base (digit_char d) = Some d.
Proof.
  intros Hd Hbase.
  assert (H16 : 0 <= d < 16) by lia.
  assert (Hlt : (d <? base) = true) by (apply Z.ltb_lt; lia).
  each_digit d H16; unfold digit_value; simpl; simpl in Hlt; rewrite Hlt; reflexivity.
Qed.

Lemma digits_of_cons (base d : Z) (ds : list Z) :
  digits_of base (d :: ds) = true -> 0 <= d < base /\ digits_of base ds = true.
Proof.
  unfold digits_of. simpl. intros H.
  apply andb_true_iff in H. destruct H as [Hd Hds].
  apply andb_true_iff in Hd. destruct Hd as [H0 H1].
  apply Z.leb_le in H0. apply Z.ltb_lt in H1. auto.
Qed.

(** The scan of a run of digits followed by text that ends the number. *)
Lemma scan_digits_run (base : Z) (ds : list Z) (tail : string) :
  base <= 16 ->
  digits_of base ds = true ->
  number_ends base tail = true ->
  forall acc,
    scan_digits base (Some acc) (digits_string ds ++ tail)
    = Some (positional base acc ds).
Proof.
  intros Hbase. induction ds as [|d ds IH]; intros Hds Hend acc.
  - simpl. destruct tail as [|c tail]; [reflexivity|].
    simpl in *. destruct (digit_value base c); [discriminate Hend | reflexivity].
  - apply digits_of_cons in Hds. destruct Hds as [Hd Hds].
    simpl. rewrite (digit_value_char base d Hd Hbase).
    apply IH; assumption.
Qed.

Lemma scan_digits_first (base : Z) (d : Z) (ds : list Z) (tail : string) :
  base <= 16 ->
  digits_of base (d :: ds) = true ->
  number_ends base tail = true ->
  scan_digits base None (digits_string (d :: ds) ++ tail)
  = Some (positional base 0 (d :: ds)).
Proof.
  intros Hbase Hds Hend.
  pose proof (digits_of_cons _ _ _ Hds) as [Hd Hds'].
  simpl. rewrite (digit_value_char base d Hd Hbase).
  rewrite (scan_digits_run base ds tail Hbase Hds' Hend). reflexivity.
Qed.

Lemma int_of_long_small (v : Z) :
  0 <= v <= INT_MAX -> int_of_long (clamp_long v) = v.
Proof.
  unfold INT_MAX. intros Hv.
  unfold clamp_long, LONG_MIN, LONG_MAX.
  destruct (v <? - 2 ^ 63) eqn:H1; [apply Z.ltb_lt in H1; lia|].
  destruct (2 ^ 63 - 1 <? v) eqn:H2; [apply Z.ltb_lt in H2; lia|].
  unfold int_of_long, int_of_uint.
  rewrite Z.mod_small by lia.
  destruct (v <? 2 ^ 31) eqn:H3; [reflexivity | apply Z.ltb_ge in H3; lia].
Qed.

(** What is stored is an [int] that is not negative. *)
Lemma get_uint_range (v : string) (n : Z) :
  get_uint v = Stored n -> 0 <= n <= INT_MAX.
Proof.
  unfold get_uint. destruct (sscanf_i v) as [num|] eqn:Hs; [|discriminate].
  destruct (num <? 0) eqn:Hneg; [discriminate|].
  intros H. injection H as <-. apply Z.ltb_ge in Hneg.
  split; [exact Hneg|].
  unfold sscanf_i in Hs.
  destruct (match skip_space v with
            | String "-" rest => (true, rest)
            | String "+" rest => (false, rest)
            | _ => (false, skip_space v)
            end) as [neg body].
  destruct (scan_unsigned body) as [u|]; [|discriminate Hs].
  injection Hs as <-.
  unfold int_of_long, int_of_uint, INT_MAX.
  set (m := clamp_long (if neg then - u else u) mod 2 ^ 32).
  assert (0 <= m < 2 ^ 32) by (apply Z.mod_pos_bound; lia).
  destruct (m <? 2 ^ 31) eqn:Hm; [apply Z.ltb_lt in Hm; lia | lia].
Qed.

Lemma positional_nonneg (base : Z) (ds : list Z) :
  0 <= base -> digits_of base ds = true ->
  forall acc, 0 <= acc -> 0 <= positional base acc ds.
Proof.
  intros Hbase. induction ds as [|d ds IH]; intros Hds acc Hacc; [exact Hacc|].
  apply digits_of_cons in Hds. destruct Hds as [Hd Hds].
  simpl. apply IH; [exact Hds | nia].
Qed.

(** Without white space or sign in front, [%i] is the unsigned scan. *)
Lemma sscanf_i_unsigned (c : ascii) (rest : string) (v : Z) :
  isspace c = false -> Ascii.eqb c "-" = false -> Ascii.eqb c "+" = false ->
  scan_unsigned (String c rest) = Some v ->
  sscanf_i (String c rest) = Some (int_of_long (clamp_long v)).
Proof.
  intros Hsp Hminus Hplus Hscan. unfold sscanf_i.
  simpl skip_space. rewrite Hsp.
  destruct c as [[] [] [] [] [] [] [] []];
    try discriminate Hminus; try discriminate Hplus;
    rewrite Hscan; reflexivity.
Qed.

Lemma get_uint_unsigned (c : ascii) (rest : string) (v : Z) :
  isspace c = false -> Ascii.eqb c "-" = false -> Ascii.eqb c "+" = false ->
  scan_unsigned (String c rest) = Some v ->
  0 <= v <= INT_MAX ->
  get_uint (String c rest) = Stored v.
Proof.
  intros Hsp Hminus Hplus Hscan Hv. unfold get_uint.
  rewrite (sscanf_i_unsigned c rest v Hsp Hminus Hplus Hscan).
  rewrite (int_of_long_small v Hv).
  destruct (v <? 0) eqn:Hneg; [apply Z.ltb_lt in Hneg; lia | reflexivity].
Qed.

Lemma scan_unsigned_decimal (d : Z) (ds : list Z) (tail : string) :
  1 <= d -> digits_of 10 (d :: ds) = true -> number_ends 10 tail = true ->
  scan_unsigned (digits_string (d :: ds) ++ tail) = Some (positional 10 0 (d :: ds)).
Proof.
  intros Hd Hds Hend.
  rewrite <- (scan_digits_first 10 d ds tail) by (assumption || lia).
  pose proof (digits_of_cons _ _ _ Hds) as [Hd10 _].
  assert (H16 : 0 <= d < 16) by lia.
  simpl digits_string. simpl append.
  each_digit d H16; try lia; reflexivity.
Qed.

Lemma scan_unsigned_octal (ds : list Z) (tail : string) :
  digits_of 8 ds = true -> number_ends 8 tail = true ->
  scan_unsigned ("0" ++ digits_string ds ++ tail) = Some (positional 8 0 ds).
Proof.
  intros Hds Hend.
  rewrite <- (scan_digits_run 8 ds tail) by (assumption || lia).
  simpl append at 1.
  destruct ds as [|d ds].
  - simpl. destruct tail as [|c tail]; [reflexivity|].
    simpl in Hend. unfold scan_unsigned.
    destruct (digit_value 8 c) eqn:Hc; [discriminate Hend|].
    destruct (Ascii.eqb c "x" || Ascii.eqb c "X"); [discriminate Hend|].
    simpl. rewrite Hc. reflexivity.
  - pose proof (digits_of_cons _ _ _ Hds) as [Hd _].
    assert (H16 : 0 <= d < 16) by lia.
    simpl digits_string. simpl append.
    each_digit d H16; try lia; reflexivity.
Qed.

Lemma scan_unsigned_hex (d : Z) (ds : list Z) (tail : string) :
  digits_of 16 (d :: ds) = true -> number_ends 16 tail = true ->
  scan_unsigned ("0x" ++ digits_string (d :: ds) ++ tail)
  = Some (positional 16 0 (d :: ds)).
Proof.
  intros Hds Hend.
  rewrite <- (scan_digits_first 16 d ds tail) by (assumption || lia).
  reflexivity.
Qed.

Lemma digit_char_plain (d : Z) :
  0 <= d < 16 ->
  isspace (digit_char d) = false
  /\ Ascii.eqb (digit_char d) "-" = false
  /\ Ascii.eqb (digit_char d) "+" = false.
Proof.
  intros H16. each_digit d H16; repeat split; reflexivity.
Qed.




(** ** Tolerant includes *)

(** C3, as stated, does not hold: an open(2) failure other than "not found"
    (here EACCES) is suppressed by [!include_try] as well, and the call goes on
    to succeed. *)
Lemma include_try_suppresses_eacces :
  file_open unreadable_world "secret.conf" = OpenFailed EACCES
  /\ observed (settings_read_i unreadable_world accept_all conf None tt 3)
     = Some ([Call_kv "after" "1"], Success).
Proof. split; vm_compute; reflexivity. Qed.

(** C3, amended: [!include_try] suppresses every failure of open(2) on a
    matched file, whatever the errno, and a glob expansion that matches
    nothing; in both cases no frame is pushed and reading goes on.  The other
    failures of a tolerant include still abort the call with an error: a glob
    allocation, read or unknown error, and a recursive include. *)
Theorem tolerant_include_failures :
  (forall w pth stack e,
      on_stack pth stack = false ->
      file_open w pth = OpenFailed e ->
      settings_add_include w pth stack true = (stack, None))
  /\ (forall w pattern stack,
         HAVE_GLOB w = true ->
         glob w pattern = GLOB_NOMATCH ->
         settings_include w pattern stack true = (stack, None))
  /\ (forall w pattern stack,
         HAVE_GLOB w = true ->
         (glob w pattern = GLOB_NOSPACE ->
          settings_include w pattern stack true
          = (stack, Some "glob() failed: Not enough memory"))
         /\ (glob w pattern = GLOB_ABORTED ->
             settings_include w pattern stack true
             = (stack, Some "glob() failed: Read error"))
         /\ (glob w pattern = GlobUnknown ->
             settings_include w pattern stack true
             = (stack, Some "glob() failed: Unknown error")))
  /\ (forall w pth stack,
         on_stack pth stack = true ->
         settings_add_include w pth stack true
         = (stack, Some ("Recursive include file: " ++ pth)))
  /\ (forall (C : Type) w (cb : callbacks C) (st : reader C) top buffer line
             pattern wa kl inputs,
         classify (getenv w) top line = (Include pattern true, wa, kl) ->
         (forall errormsg,
             settings_include w pattern (input st) true = (inputs, Some errormsg) ->
             exists st',
               dispatch w cb st top buffer line
               = Finished st' (Failure (error_message inputs errormsg))
               /\ calls st' = calls st)
         /\ (settings_include w pattern (input st) true = (inputs, None) ->
             exists st',
               dispatch w cb st top buffer line = Running st'
               /\ input st' = inputs /\ calls st' = calls st)).
Proof.
  split; [|split; [|split; [|split]]].
  - intros w pth stack e Hstack Hopen. unfold settings_add_include.
    rewrite Hstack, Hopen. reflexivity.
  - intros w pattern stack Hglob Hmatch. unfold settings_include.
    rewrite Hglob, Hmatch. reflexivity.
  - intros w pattern stack Hglob. unfold settings_include. rewrite Hglob.
    repeat split; intros ->; reflexivity.
  - intros w pth stack Hstack. unfold settings_add_include.
    rewrite Hstack. reflexivity.
  - intros C w cb st top buffer line pattern wa kl inputs Hcl.
    split.
    + intros errormsg Hinc. unfold dispatch. rewrite Hcl.
      simpl input. rewrite Hinc. simpl. eexists. split; reflexivity.
    + intros Hinc. unfold dispatch. rewrite Hcl.
      simpl input. rewrite Hinc. eexists. repeat split; reflexivity.
Qed.

Lemma tolerant_include_failures_witness :
  settings_add_include unreadable_world "secret.conf" [root_frame []] true
  = ([root_frame []], None)
  /\ settings_include unreadable_world "missing.conf" [root_frame []] true
     = ([root_frame []], None)
  /\ settings_include (glob_world GLOB_NOSPACE) "*.conf" [root_frame []] true
     = ([root_frame []], Some "glob() failed: Not enough memory")
  /\ settings_include (glob_world GLOB_ABORTED) "*.conf" [root_frame []] true
     = ([root_frame []], Some "glob() failed: Read error")
  /\ settings_include (glob_world GlobUnknown) "*.conf" [root_frame []] true
     = ([root_frame []], Some "glob() failed: Unknown error")
  /\ settings_add_include unreadable_world conf [root_frame []] true
     = ([root_frame []], Some ("Recursive include file: " ++ conf))
  /\ (exists st',
         dispatch (glob_world GLOB_ABORTED) accept_all
                  (initial conf [] None tt) (root_frame []) EmptyString
                  "!include_try *.conf"
         = Finished st' (Failure (error_message [root_frame []]
                                                "glob() failed: Read error"))
         /\ calls st' = [])
  /\ (exists st',
         dispatch unreadable_world accept_all
                  (initial conf [] None tt) (root_frame []) EmptyString
                  "!include_try secret.conf"
         = Running st'
         /\ input st' = [root_frame []] /\ calls st' = []).
Proof.
  destruct tolerant_include_failures as [H1 [H2 [H3 [H4 H5]]]].
  split; [|split; [|split; [|split; [|split; [|split; [|split]]]]]].
  - apply (H1 unreadable_world "secret.conf" [root_frame []] EACCES); reflexivity.
  - apply (H2 unreadable_world "missing.conf" [root_frame []]); reflexivity.
  - apply (H3 (glob_world GLOB_NOSPACE) "*.conf" [root_frame []]); reflexivity.
  - apply (H3 (glob_world GLOB_ABORTED) "*.conf" [root_frame []]); reflexivity.
  - apply (H3 (glob_world GlobUnknown) "*.conf" [root_frame []]); reflexivity.
  - apply (H4 unreadable_world conf [root_frame []]); reflexivity.
  - apply (H5 unit (glob_world GLOB_ABORTED) accept_all (initial conf [] None tt)
              (root_frame []) EmptyString "!include_try *.conf"
              "*.conf" true 12%nat [root_frame []]); reflexivity.
  - apply (H5 unit unreadable_world accept_all (initial conf [] None tt)
              (root_frame []) EmptyString "!include_try secret.conf"
              "secret.conf" true 12%nat [root_frame []]); reflexivity.
Defined.

(** ** Recursive includes *)




(** ** Order of included files *)

Lemma on_stack_cons (pth : string) (fr : input_stack) (stack : list input_stack) :
  on_stack pth (fr :: stack) = String.eqb (path fr) pth || on_stack pth stack.
Proof. reflexivity. Qed.

(** Files that can be opened and are not on the stack are pushed one after
    the other, so that the last one ends on top. *)
Lemma include_paths_push (w : world) (ignore_errors : bool)
    (files : list (string * list string)) :
  forall stack,
    NoDup (map fst files) ->
    (forall p, In p (map fst files) -> on_stack p stack = false) ->
    (forall p lines, In (p, lines) files -> file_open w p = Opened lines) ->
    include_paths w (map fst files) stack ignore_errors
    = ((rev (map (fun f => pushed_frame (fst f) (snd f)) files) ++ stack)%list,
       None).
Proof.
  induction files as [|[p lines] files IH]; intros stack Hnodup Hfresh Hopen.
  - reflexivity.
  - simpl map in *. inversion Hnodup as [|? ? Hnotin Hnodup']; subst.
    simpl include_paths. unfold settings_add_include.
    rewrite (Hfresh p (or_introl eq_refl)).
    rewrite (Hopen p lines (or_introl eq_refl)).
    rewrite IH.
    + simpl rev. rewrite <- app_assoc. reflexivity.
    + exact Hnodup'.
    + intros p' Hin. rewrite on_stack_cons. simpl path.
      rewrite (Hfresh p' (or_intror Hin)).
      destruct (String.eqb_spec p p') as [->|_]; [contradiction | reflexivity].
    + intros p' lines' Hin. apply Hopen. right. exact Hin.
Qed.

(** The classification of an assignment does not depend on the frame. *)
Lemma classify_assignment_frame env top line key value quoted wa kl :
  classify env top line = (Assignment key value quoted, wa, kl) ->
  forall top', classify env top' line = (Assignment key value quoted, wa, kl).
Proof.
  unfold classify. destruct (split_key line) as [key_part rest].
  intros H top'.
  destruct (String.eqb (if IS_WHITE (head_char rest) then key_part else line)
                       "!include_try"
            || String.eqb (if IS_WHITE (head_char rest) then key_part else line)
                          "!include");
    [discriminate H | exact H].
Qed.

Section Assignments.

Context {C : Type}.
Variable w : world.
Variable cb : callbacks C.

(** The key-value callback never answers an error. *)
Hypothesis callback_ok : forall key value ctx, snd (callback cb key value ctx) = None.

(** A turn on an assignment line when nothing is skipped. *)
Lemma step_assignment (st : reader C) top prev raw rest key value :
  input st = top :: prev ->
  input_lines top = raw :: rest ->
  full_line st = EmptyString ->
  skip st <= 0 ->
  as_assignment (getenv w) raw = Some (key, value) ->
  exists st',
    step w cb st = Running st'
    /\ input st' = advance top rest :: prev
    /\ full_line st' = EmptyString
    /\ skip st' = skip st
    /\ calls st' = (calls st ++ [Call_kv key value])%list.
Proof.
  intros Hin Hlines Hfull Hskip Has.
  unfold as_assignment in Has.
  destruct (scan_line raw) as [| |line warn|] eqn:Hscan; try discriminate Has.
  destruct (classify (getenv w) (root_frame []) line) as [[ev wa] kl] eqn:Hcl.
  destruct ev as [| k v quoted | | |]; try discriminate Has.
  injection Has as -> ->.
  rewrite (step_logical w cb st top prev raw rest line warn Hin Hlines Hscan Hfull).
  rewrite (dispatch_assignment w cb _ _ _ _ key value quoted wa kl
             (classify_assignment_frame _ _ _ _ _ _ _ _ Hcl _)).
  unfold do_assignment. simpl skip. simpl context.
  destruct (0 <? skip st) eqn:Hlt; [apply Z.ltb_lt in Hlt; lia|].
  pose proof (callback_ok key value (context st)) as Hok.
  destruct (callback cb key value (context st)) as [ctx' errormsg].
  simpl in Hok. subst errormsg.
  eexists. split; [reflexivity|]. repeat split; reflexivity.
Qed.

(** The frame on top is read to its end. *)
Lemma read_assignments (lines : list string) :
  forall (st : reader C) top prev,
    input st = top :: prev ->
    input_lines top = lines ->
    full_line st = EmptyString ->
    skip st <= 0 ->
    all_assignments (getenv w) lines = true ->
    exists n st' top',
      turns w cb n st st'
      /\ input st' = top' :: prev
      /\ input_lines top' = []
      /\ full_line st' = EmptyString
      /\ skip st' = skip st
      /\ calls st' = (calls st ++ file_calls (getenv w) lines)%list.
Proof.
  induction lines as [|raw rest IH]; intros st top prev Hin Hlines Hfull Hskip Hall.
  - exists O, st, top. repeat split; try assumption.
    + constructor.
    + simpl. rewrite app_nil_r. reflexivity.
  - simpl in Hall. apply andb_true_iff in Hall. destruct Hall as [Hraw Hall].
    destruct (as_assignment (getenv w) raw) as [[key value]|] eqn:Has;
      [|discriminate Hraw].
    destruct (step_assignment st top prev raw rest key value
                Hin Hlines Hfull Hskip Has)
      as [st1 [Hstep [Hin1 [Hfull1 [Hskip1 Hcalls1]]]]].
    destruct (IH st1 (advance top rest) prev Hin1 eq_refl Hfull1
                ltac:(rewrite Hskip1; exact Hskip) Hall)
      as [n [st' [top' [Hturns [Hin' [Hlines' [Hfull' [Hskip' Hcalls']]]]]]]].
    exists (S n), st', top'. repeat split; try assumption.
    + econstructor; eassumption.
    + congruence.
    + rewrite Hcalls', Hcalls1. unfold file_calls. simpl flat_map. rewrite Has.
      rewrite <- app_assoc. reflexivity.
Qed.

(** The frames pushed above [below] are read from the top down, and then
    [below] is the current frame again. *)
Lemma read_pushed (files : list (string * list string)) :
  forall (st : reader C) below prev,
    input st
    = (map (fun f => pushed_frame (fst f) (snd f)) files ++ below :: prev)%list ->
    full_line st = EmptyString ->
    skip st <= 0 ->
    (forall f, In f files -> all_assignments (getenv w) (snd f) = true) ->
    exists n st',
      turns w cb n st st'
      /\ input st' = below :: prev
      /\ full_line st' = EmptyString
      /\ skip st' = skip st
      /\ calls st'
         = (calls st ++ flat_map (fun f => file_calls (getenv w) (snd f)) files)%list.
Proof.
  induction files as [|[p lines] files IH]; intros st below prev Hin Hfull Hskip Hall.
  - exists O, st. repeat split; try assumption.
    + constructor.
    + simpl. rewrite app_nil_r. reflexivity.
  - simpl map in Hin. simpl app in Hin.
    destruct (read_assignments lines st (pushed_frame p lines) _ Hin eq_refl
                Hfull Hskip (Hall (p, lines) (or_introl eq_refl)))
      as [n1 [st1 [top1 [Hturns1 [Hin1 [Hlines1 [Hfull1 [Hskip1 Hcalls1]]]]]]]].
    (* the pop of the exhausted frame *)
    assert (Hpop : exists st2,
               step w cb st1 = Running st2
               /\ input st2
                  = (map (fun f => pushed_frame (fst f) (snd f)) files
                       ++ below :: prev)%list
               /\ full_line st2 = EmptyString
               /\ skip st2 = skip st1 /\ calls st2 = calls st1).
    { destruct (map (fun f => pushed_frame (fst f) (snd f)) files ++ below :: prev)%list
        as [|next others] eqn:Hrest.
      - destruct (map (fun f => pushed_frame (fst f) (snd f)) files); discriminate Hrest.
      - rewrite (step_pop w cb st1 top1 next others Hin1 Hlines1).
        eexists. split; [reflexivity|]. repeat split; try reflexivity. exact Hfull1. }
    destruct Hpop as [st2 [Hstep2 [Hin2 [Hfull2 [Hskip2 Hcalls2]]]]].
    destruct (IH st2 below prev Hin2 Hfull2 ltac:(lia)
                (fun f Hf => Hall f (or_intror Hf)))
      as [n3 [st3 [Hturns3 [Hin3 [Hfull3 [Hskip3 Hcalls3]]]]]].
    exists (n1 + S n3)%nat, st3. repeat split; try assumption.
    + eapply turns_trans; [exact Hturns1|].
      econstructor; eassumption.
    + lia.
    + rewrite Hcalls3, Hcalls2, Hcalls1. simpl flat_map.
      rewrite <- app_assoc. reflexivity.
Qed.

End Assignments.

Lemma poke_nul_empty (n : nat) : poke_nul n EmptyString = EmptyString.
Proof. destruct n; reflexivity. Qed.



(** ** Quoted and unquoted values *)

Lemma last_char_none (s : string) : last_char s = None -> s = EmptyString.
Proof.
  induction s as [|c s IH]; [reflexivity|].
  destruct s as [|d s]; [discriminate|].
  intros H. discriminate (IH H).
Qed.

Lemma str_app_assoc (a b c : string) : (a ++ b) ++ c = a ++ (b ++ c).
Proof. induction a as [|x a IH]; simpl; [reflexivity | rewrite IH; reflexivity]. Qed.

Lemma str_app_nil_r (a : string) : a ++ EmptyString = a.
Proof. induction a as [|x a IH]; simpl; [reflexivity | rewrite IH; reflexivity]. Qed.

Lemma str_length_app (a b : string) :
  String.length (a ++ b) = (String.length a + String.length b)%nat.
Proof. induction a as [|x a IH]; simpl; [reflexivity | rewrite IH; reflexivity]. Qed.

(** What [strchr] finds: the text before has no [c], the rest starts with it. *)
Lemma strchr_found (s : string) (c : ascii) (pre suf : string) :
  strchr s c = Some (pre, suf) ->
  s = pre ++ suf /\ strchr pre c = None /\ exists suf', suf = String c suf'.
Proof.
  revert pre suf. induction s as [|d s IH]; intros pre suf H; [discriminate|].
  simpl in H. destruct (Ascii.eqb_spec d c) as [->|Hne].
  - injection H as <- <-. repeat split. exists s. reflexivity.
  - destruct (strchr s c) as [[pre' suf']|] eqn:Hs; [|discriminate].
    injection H as <- <-.
    destruct (IH pre' suf' eq_refl) as [-> [Hpre Hsuf]].
    repeat split; [|exact Hsuf].
    simpl. destruct (Ascii.eqb_spec d c); [contradiction|]. rewrite Hpre. reflexivity.
Qed.

Lemma t_strcut_absent (s : string) (c : ascii) :
  strchr s c = None -> t_strcut s c = s.
Proof.
  induction s as [|d s IH]; simpl; intros H; [reflexivity|].
  destruct (Ascii.eqb d c); [discriminate|].
  destruct (strchr s c) as [[? ?]|]; [discriminate|].
  rewrite IH; reflexivity.
Qed.

Lemma t_strcut_app (a b : string) (c : ascii) :
  strchr a c = None -> t_strcut (a ++ String c b) c = a.
Proof.
  induction a as [|d a IH]; simpl; intros H.
  - rewrite Ascii.eqb_refl. reflexivity.
  - destruct (Ascii.eqb d c); [discriminate|].
    destruct (strchr a c) as [[? ?]|]; [discriminate|].
    rewrite IH; reflexivity.
Qed.

Section Expansion.

Variable getenv : string -> option string.

(** Text without ['$'] is left as it is. *)
Lemma substitute_env_plain (s : string) :
  strchr s "$" = None -> forall b, substitute_env getenv O b s = s.
Proof.
  induction s as [|c s IH]; intros H b; [reflexivity|].
  simpl in H. simpl.
  destruct (Ascii.eqb c "$"); [discriminate|].
  destruct (strchr s "$") as [[? ?]|]; [discriminate|].
  simpl. rewrite IH; reflexivity.
Qed.

(** Text without ['$'] in front is copied, and decides whether what comes
    next stands after a white character. *)
Lemma substitute_env_app (pre s : string) :
  strchr pre "$" = None ->
  forall b,
    substitute_env getenv O b (pre ++ s)
    = pre ++ substitute_env getenv O
               (match last_char pre with Some c => IS_WHITE c | None => b end) s.
Proof.
  induction pre as [|c pre IH]; intros H b; [reflexivity|].
  simpl in H.
  destruct (Ascii.eqb c "$") eqn:Hc; [discriminate|].
  destruct (strchr pre "$") as [[? ?]|] eqn:Hpre; [discriminate|].
  simpl append. simpl substitute_env. rewrite Hc. simpl andb. cbv iota.
  rewrite (IH eq_refl). destruct pre as [|a pre]; [reflexivity|].
  change (last_char (String c (String a pre))) with (last_char (String a pre)).
  destruct (last_char (String a pre)) eqn:Hlast; [reflexivity|].
  apply last_char_none in Hlast. discriminate Hlast.
Qed.

(** The characters of an [$ENV:NAME] are passed over. *)
Lemma substitute_env_skip (a s : string) (b : bool) :
  substitute_env getenv (String.length a) b (a ++ s) = substitute_env getenv O b s.
Proof.
  induction a as [|c a IH]; [reflexivity|]. simpl. exact IH.
Qed.

Lemma substitute_env_skip_all (n : nat) (s : string) (b : bool) :
  (String.length s <= n)%nat -> substitute_env getenv n b s = EmptyString.
Proof.
  revert n. induction s as [|c s IH]; intros n H; [reflexivity|].
  simpl in H. destruct n as [|n]; [lia|]. simpl. apply IH. lia.
Qed.

End Expansion.

Lemma prefix_split (a s : string) :
  String.prefix a s = true -> exists r, s = a ++ r.
Proof.
  revert s. induction a as [|c a IH]; intros s H.
  - exists s. reflexivity.
  - destruct s as [|d s]; [discriminate|]. simpl in H.
    destruct (ascii_dec c d) as [->|]; [|discriminate].
    destruct (IH s H) as [r ->]. exists r. reflexivity.
Qed.

Section ExpansionLoop.

Variable getenv : string -> option string.

(** The loop of [expand_environment_vars] computes the substitution of the
    specification on what is left of the value. *)
Lemma expand_loop_spec (fuel : nat) :
  forall prev pvalue expanded,
    (String.length pvalue < fuel)%nat ->
    expand_loop getenv fuel prev pvalue expanded
    = expanded ++ substitute_env getenv O (after_white prev) pvalue.
Proof.
  induction fuel as [|fuel IH]; intros prev pvalue expanded Hfuel; [lia|].
  cbn [expand_loop].
  destruct (strchr pvalue "$") as [[between p]|] eqn:Hdollar.
  2:{ rewrite (substitute_env_plain getenv pvalue Hdollar). reflexivity. }
  destruct (strchr_found _ _ _ _ Hdollar) as [-> [Hbetween [p' ->]]].
  rewrite (substitute_env_app getenv between (String "$" p') Hbetween).
  rewrite str_length_app in Hfuel. simpl in Hfuel.
  assert (Hwhite : match
                     match last_char between with
                     | Some c => Some c
                     | None => prev
                     end
                   with
                   | Some c => IS_WHITE c
                   | None => true
                   end
                   = match last_char between with
                     | Some c => IS_WHITE c
                     | None => after_white prev
                     end)
    by (destruct (last_char between); destruct prev; reflexivity).
  rewrite Hwhite. clear Hwhite.
  set (b := match last_char between with
            | Some c => IS_WHITE c
            | None => after_white prev
            end).
  change (str_begins_with (String "$" p') "$ENV:") with (String.prefix "ENV:" p').
  change (str_drop 1 (String "$" p')) with p'.
  cbn [substitute_env].
  change (Ascii.eqb "$" "$") with true. cbn [andb].
  destruct (b && String.prefix "ENV:" p') eqn:Hcond.
  - apply andb_true_iff in Hcond. destruct Hcond as [Hb Hprefix].
    destruct (prefix_split _ _ Hprefix) as [r ->].
    change (str_drop 4 ("ENV:" ++ r)) with r.
    destruct (strchr r " ") as [[name var_end]|] eqn:Hspace.
    + assert (Hvar : strchr (String "$" ("ENV:" ++ r)) " "
                     = Some ("$ENV:" ++ name, var_end))
        by (simpl; rewrite Hspace; reflexivity).
      rewrite Hvar. clear Hvar.
      destruct (strchr_found _ _ _ _ Hspace) as [-> [Hname [ve ->]]].
      rewrite (t_strcut_app name ve " " Hname).
      change (str_drop 5 ("$ENV:" ++ name)) with name.
      change (substitute_env getenv (4 + String.length name) false
                             ("ENV:" ++ name ++ String " " ve))
        with (substitute_env getenv (String.length name) false
                             (name ++ String " " ve)).
      rewrite substitute_env_skip.
      rewrite IH.
      2:{ rewrite !str_length_app in Hfuel. simpl in Hfuel. simpl. lia. }
      cbn [substitute_env].
      change (Ascii.eqb " " "$") with false. cbn [andb].
      destruct (getenv name); rewrite ?str_app_assoc; reflexivity.
    + assert (Hvar : strchr (String "$" ("ENV:" ++ r)) " " = None)
        by (simpl; rewrite Hspace; reflexivity).
      rewrite Hvar. clear Hvar.
      rewrite (t_strcut_absent r " " Hspace).
      change (str_drop 5 (String "$" ("ENV:" ++ r))) with r.
      change (substitute_env getenv (4 + String.length r) false ("ENV:" ++ r))
        with (substitute_env getenv (String.length r) false r).
      rewrite substitute_env_skip_all by lia.
      destruct (getenv r); rewrite ?str_app_assoc, ?str_app_nil_r; reflexivity.
  - rewrite IH by lia.
    rewrite !str_app_assoc. reflexivity.
Qed.

(** [expand_environment_vars] is the substitution of the specification. *)
Lemma expand_environment_vars_spec (value : string) :
  expand_environment_vars getenv value = env_expanded getenv value.
Proof.
  unfold expand_environment_vars, env_expanded.
  destruct (strchr value "$") as [[pre pvalue]|] eqn:Hdollar.
  - destruct (strchr_found _ _ _ _ Hdollar) as [Hvalue [Hpre _]].
    rewrite expand_loop_spec.
    + rewrite Hvalue. rewrite (substitute_env_app getenv pre pvalue Hpre).
      destruct (last_char pre); reflexivity.
    + rewrite Hvalue, str_length_app. lia.
  - rewrite (substitute_env_plain getenv value Hdollar). reflexivity.
Qed.

End ExpansionLoop.

Lemma drop_last_app (inner : string) (q : ascii) :
  drop_last (inner ++ String q EmptyString) = inner.
Proof.
  induction inner as [|c inner IH]; [reflexivity|].
  simpl append. destruct inner as [|d inner]; [reflexivity|].
  change (drop_last (String c (String d inner ++ String q "")))
    with (String c (drop_last (String d inner ++ String q ""))).
  rewrite IH. reflexivity.
Qed.

Lemma last_char_app (inner : string) (q : ascii) :
  last_char (inner ++ String q EmptyString) = Some q.
Proof.
  induction inner as [|c inner IH]; [reflexivity|].
  simpl append. destruct inner as [|d inner]; [reflexivity|]. exact IH.
Qed.

(** What an assignment line is made of: its key, and after the ['='] the
    value that [assignment_value] turns into what is delivered. *)
Lemma classify_assignment_inv env top line key v quoted wa kl :
  classify env top line = (Assignment key v quoted, wa, kl) ->
  exists rest,
    split_key line = (key, rest)
    /\ head_char (skip_white rest) = "="%char
    /\ assignment_value env (skip_white (str_drop 1 (skip_white rest))) = (v, quoted).
Proof.
  unfold classify. destruct (split_key line) as [key_part rest].
  intros H. exists rest.
  destruct (String.eqb (if IS_WHITE (head_char rest) then key_part else line)
                       "!include_try"
            || String.eqb (if IS_WHITE (head_char rest) then key_part else line)
                          "!include"); [discriminate H|].
  destruct (Ascii.eqb_spec (head_char (skip_white rest)) "=") as [Heq|Hne].
  - destruct (assignment_value env (skip_white (str_drop 1 (skip_white rest))))
      as [v' quoted'].
    injection H as <- <- <- _ _. repeat split. exact Heq.
  - split_matches H; discriminate H.
Qed.

(** The key-value callback is called with the key and the value when nothing
    is skipped, whether it answers an error or not. *)
Lemma do_assignment_calls {C : Type} (cb : callbacks C) (st : reader C) key value :
  skip st <= 0 ->
  calls (state_of (do_assignment cb st key value))
  = (calls st ++ [Call_kv key value])%list.
Proof.
  intros Hskip. unfold do_assignment.
  destruct (0 <? skip st) eqn:Hlt; [apply Z.ltb_lt in Hlt; lia|].
  destruct (callback cb key value (context st)) as [ctx' [msg|]]; reflexivity.
Qed.



(** ** Section depth *)

Lemma depth_after_app (evs : list line_event) (ev : line_event) :
  forall d,
    depth_after d (evs ++ [ev])
    = match depth_after d evs with
      | Some d' => depth_after d' [ev]
      | None => None
      end.
Proof.
  induction evs as [|e evs IH]; intros d; [destruct ev; reflexivity|].
  destruct e; simpl; try apply IH.
  destruct (d <? 1); [reflexivity | apply IH].
Qed.

(** The depth is the number of opening lines minus that of closing lines. *)
Lemma depth_after_count (evs : list line_event) :
  forall d d',
    depth_after d evs = Some d' ->
    d' = d + Z.of_nat (count_opens evs) - Z.of_nat (count_closes evs).
Proof.
  unfold count_opens, count_closes.
  induction evs as [|e evs IH]; intros d d' H.
  - simpl in *. injection H as <-. lia.
  - destruct e; simpl in H; simpl filter; try (rewrite (IH _ _ H); simpl length; lia).
    destruct (d <? 1); [discriminate H|].
    rewrite (IH _ _ H). simpl length. lia.
Qed.

Section Depth.

Context {C : Type}.
Variable w : world.
Variable cb : callbacks C.

Lemma step_depth (st : reader C) :
  depth_inv st ->
  match step w cb st with
  | Running st' => depth_inv st'
  | Finished st' Success =>
      exists d, depth_after 0 (events st') = Some d /\ 0 <= d
  | Finished _ _ => True
  end.
Proof.
  intros [Hdepth Hpos].
  destruct (step w cb st) as [st'|st' v] eqn:Hstep.
  - turn_cases Hstep; try discriminate Hstep; injection Hstep as <-;
      unfold depth_inv; simpl in *;
      rewrite ?app_nil_r, ?depth_after_app, ?Hdepth; simpl;
      z_bools;
      repeat match goal with
             | |- context [?a <? ?b] => destruct (Z.ltb_spec a b)
             end;
      try lia; auto; split; first [reflexivity | f_equal; lia | lia].
  - destruct v; try exact I.
    turn_cases Hstep; try discriminate Hstep; injection Hstep as <-;
      simpl in *; rewrite ?app_nil_r, ?depth_after_app, ?Hdepth; simpl;
      z_bools;
      repeat match goal with
             | |- context [?a <? ?b] => destruct (Z.ltb_spec a b)
             end;
      try lia; eexists; (split; [reflexivity | lia]).
Qed.

End Depth.

Lemma run_depth {C : Type} (w : world) (cb : callbacks C) (fuel : nat) :
  forall st st',
    depth_inv st ->
    run w cb fuel st = Some (st', Success) ->
    exists d, depth_after 0 (events st') = Some d /\ 0 <= d.
Proof.
  induction fuel as [|fuel IH]; intros st st' Hinv Hrun; [discriminate|].
  simpl in Hrun. pose proof (step_depth w cb st Hinv) as Hstep.
  destruct (step w cb st) as [st1|st1 v].
  - apply (IH st1 st' Hstep Hrun).
  - injection Hrun as <- ->. exact Hstep.
Qed.

(** C1, as stated, does not hold: a file whose only line opens a section is
    read with success, with one opening and no closing line. *)
Lemma unmatched_open_succeeds :
  exists st,
    settings_read_i (single_file ["foo {"]) accept_all conf None tt 2
    = Some (st, Success)
    /\ count_opens (events st) = 1%nat
    /\ count_closes (events st) = 0%nat.
Proof. eexists. repeat split; vm_compute; reflexivity. Qed.

(** C1, amended: for every input on which [settings_read_i] returns success,
    the running section depth is never negative, and it ends at the number of
    opening lines minus the number of closing lines, which is not negative
    either; a closing line at depth 0 makes the call fail with "Unexpected
    '}'".  The two numbers need not be equal: the end of the input is reached
    with success whatever the depth is. *)
Theorem section_depth_never_negative :
  (forall (C : Type) w (cb : callbacks C) pth sect ctx fuel st,
      settings_read_i w cb pth sect ctx fuel = Some (st, Success) ->
      exists d,
        depth_after 0 (events st) = Some d
        /\ 0 <= d
        /\ d = Z.of_nat (count_opens (events st)) - Z.of_nat (count_closes (events st)))
  /\ (forall (C : Type) (cb : callbacks C) (st : reader C),
         sections st = 0 ->
         do_section_close cb st
         = Finished st (Failure (error_message (input st) "Unexpected '}'"))).
Proof.
  split.
  - intros C w cb pth sect ctx fuel st Hread.
    unfold settings_read_i in Hread.
    destruct (file_open w pth) as [lines|e]; [|discriminate Hread].
    assert (Hinit : depth_inv (initial pth lines sect ctx))
      by (split; [reflexivity | simpl; lia]).
    destruct (run_depth w cb fuel _ _ Hinit Hread) as [d [Hd Hpos]].
    exists d. split; [exact Hd|]. split; [exact Hpos|].
    rewrite (depth_after_count _ _ _ Hd). lia.
  - intros C cb st Hzero. unfold do_section_close. rewrite Hzero. reflexivity.
Qed.

Lemma section_depth_never_negative_witness :
  (exists st d,
      settings_read_i (single_file ["a {"; "b {"; "}"]) accept_all conf None tt 4
      = Some (st, Success)
      /\ depth_after 0 (events st) = Some d /\ 0 <= d
      /\ d = Z.of_nat (count_opens (events st)) - Z.of_nat (count_closes (events st)))
  /\ do_section_close accept_all (initial conf ["}"] None tt)
     = Finished (initial conf ["}"] None tt)
                (Failure (error_message (input (initial conf ["}"] None tt))
                                        "Unexpected '}'")).
Proof.
  destruct section_depth_never_negative as [H1 H2].
  split.
  - assert (Hrun : exists st,
               settings_read_i (single_file ["a {"; "b {"; "}"]) accept_all
                               conf None tt 4 = Some (st, Success))
      by (eexists; vm_compute; reflexivity).
    destruct Hrun as [st Hrun].
    destruct (H1 unit (single_file ["a {"; "b {"; "}"]) accept_all conf None tt
                 4%nat st Hrun) as [d Hd].
    exists st, d. split; [exact Hrun | exact Hd].
  - apply (H2 unit accept_all (initial conf ["}"] None tt)). reflexivity.
Defined.

(** ** Selectors *)

Lemma c_str_no_nul (s : string) : no_nul (c_str s) = true.
Proof.
  unfold no_nul. induction s as [|c s IH]; [reflexivity|].
  simpl. destruct (Ascii.eqb c NUL) eqn:Hc; [reflexivity|].
  simpl. rewrite Hc, IH. reflexivity.
Qed.

Lemma no_nul_drop (n : nat) :
  forall s, no_nul s = true -> no_nul (str_drop n s) = true.
Proof.
  unfold no_nul. induction n as [|n IH]; intros s H; [exact H|].
  destruct s as [|c s]; [reflexivity|].
  simpl in H. apply andb_true_iff in H. destruct H as [_ H].
  simpl. apply IH. exact H.
Qed.

Lemma head_nul_empty (s : string) :
  no_nul s = true -> Ascii.eqb (head_char s) NUL = true -> s = EmptyString.
Proof.
  destruct s as [|c s]; [reflexivity|].
  unfold no_nul. simpl. intros H Hc. rewrite Hc in H. discriminate H.
Qed.

(** A string is its first component followed by nothing or by a separator. *)
Lemma t_strcut_split (s : string) (c : ascii) :
  s = t_strcut s c ++ str_drop (String.length (t_strcut s c)) s
  /\ strchr (t_strcut s c) c = None
  /\ (str_drop (String.length (t_strcut s c)) s = EmptyString
      \/ exists r, str_drop (String.length (t_strcut s c)) s = String c r).
Proof.
  induction s as [|d s IH]; [repeat split; left; reflexivity|].
  simpl. destruct (Ascii.eqb_spec d c) as [->|Hne].
  - repeat split. right. exists s. reflexivity.
  - destruct IH as [Hs [Hnone Hrest]]. simpl.
    destruct (Ascii.eqb_spec d c); [contradiction|].
    rewrite Hnone. repeat split; [f_equal; exact Hs | exact Hrest].
Qed.

Lemma last_component_from_slash (a r : string) :
  forall acc,
    last_component_from acc (a ++ String "/" r) = last_component_from EmptyString r.
Proof.
  induction a as [|c a IH]; intros acc; [reflexivity|].
  simpl. destruct (Ascii.eqb c "/"); apply IH.
Qed.

Lemma last_component_from_plain (s : string) :
  strchr s "/" = None ->
  forall acc, last_component_from acc s = acc ++ s.
Proof.
  induction s as [|c s IH]; intros H acc; [symmetry; apply str_app_nil_r|].
  simpl in H. simpl. destruct (Ascii.eqb c "/"); [discriminate H|].
  destruct (strchr s "/") as [[? ?]|]; [discriminate H|].
  rewrite (IH eq_refl). rewrite str_app_assoc. reflexivity.
Qed.

(** The selector is used up when nothing follows its first component: this
    component is then the last one. *)
Lemma selector_exhausted (s : string) :
  no_nul s = true ->
  Ascii.eqb (head_char (str_drop (String.length (t_strcut s "/")) s)) NUL = true ->
  last_component_from EmptyString s = t_strcut s "/".
Proof.
  intros Hnul Hhead.
  apply head_nul_empty in Hhead; [|apply no_nul_drop; exact Hnul].
  destruct (t_strcut_split s "/") as [Hs [Hnone _]].
  rewrite Hhead, str_app_nil_r in Hs.
  rewrite <- Hs in Hnone. rewrite <- Hs.
  apply (last_component_from_plain s Hnone EmptyString).
Qed.

(** Otherwise a separator follows, and what is left after it ends like the
    whole. *)
Lemma selector_advanced (s : string) :
  Ascii.eqb (head_char (str_drop (String.length (t_strcut s "/")) s)) NUL = false ->
  last_component_from EmptyString
    (str_drop 1 (str_drop (String.length (t_strcut s "/")) s))
  = last_component_from EmptyString s.
Proof.
  intros Hhead.
  destruct (t_strcut_split s "/") as [Hs [_ [Hrest|[r Hrest]]]].
  - rewrite Hrest in Hhead. discriminate Hhead.
  - rewrite Hrest in Hs. rewrite Hrest. simpl str_drop.
    transitivity (last_component_from EmptyString (t_strcut s "/" ++ String "/" r)).
    + symmetry. apply last_component_from_slash.
    + rewrite <- Hs. reflexivity.
Qed.

Arguments str_drop : simpl never.

Section Targeting.

Context {C : Type}.
Variable w : world.
Variable cb : callbacks C.
Variable sel : string.

(** Uses the invariant of the state before the turn. *)
Ltac use_pending Hinv :=
  match goal with
  | H : next_section _ = Some ?n |- _ =>
      let Hcut := fresh "Hcut" in
      let Hnul := fresh "Hnul" in
      let Hlast := fresh "Hlast" in
      let Hcalls := fresh "Hcalls" in
      let Hskip := fresh "Hskip" in
      let Hsec := fresh "Hsec" in
      destruct (Hinv n H) as [Hcut [Hnul [Hlast [Hcalls [Hskip Hsec]]]]]
  end.

Lemma step_pending (st : reader C) :
  pending_inv sel st ->
  pending_inv sel (state_of (step w cb st)).
Proof.
  intros Hinv.
  destruct (step w cb st) as [st'|st' v] eqn:Hstep; simpl state_of.
  - turn_cases Hstep; try discriminate Hstep; injection Hstep as <-;
      split_hyps;
      unfold pending_inv; simpl in *; intros next Hnext;
      try discriminate Hnext;
      try (use_pending Hinv; z_bools;
           rewrite ?app_nil_r; repeat split; solve [assumption | lia | congruence]).
    all: use_pending Hinv; injection Hnext as <-; z_bools;
      match goal with
      | H : (head_char _ =? NUL)%char = false |- _ => rewrite Hcut in H |- *
      end;
      rewrite ?app_nil_r; repeat split; try assumption; try lia;
      solve [ apply no_nul_drop, no_nul_drop; assumption
            | rewrite selector_advanced; assumption ].
  - turn_cases Hstep; try discriminate Hstep; injection Hstep as <- <-;
      split_hyps;
      unfold pending_inv; simpl in *; intros next Hnext;
      try discriminate Hnext;
      try (use_pending Hinv; z_bools;
           rewrite ?app_nil_r; repeat split; solve [assumption | lia | congruence]).
Qed.

(** The assertion on the section callback cannot fail while a component is
    waited for. *)
Lemma step_no_panic (st st' : reader C) :
  pending_inv sel st ->
  step w cb st = Finished st' Panic ->
  next_section st' = None.
Proof.
  intros Hinv Hstep.
  turn_cases Hstep; try discriminate Hstep; injection Hstep as <-;
    split_hyps; simpl in *;
    destruct (next_section st) as [next|] eqn:Hnext; try reflexivity;
    use_pending Hinv; z_bools; lia.
Qed.

Lemma step_matched (st : reader C) :
  pending_inv sel st ->
  matched_inv sel cb st ->
  matched_inv sel cb (state_of (step w cb st)).
Proof.
  intros Hinv Hmatched.
  destruct (step w cb st) as [st'|st' v] eqn:Hstep; simpl state_of.
  all: turn_cases Hstep; try discriminate Hstep;
    first [injection Hstep as <- | injection Hstep as <- <-];
    split_hyps; unfold matched_inv; simpl in *; intros Hnone Hcb;
    try discriminate Hnone; try congruence;
    try (destruct (Hmatched ltac:(assumption) Hcb) as [type' [more Hcalls']];
         rewrite Hcalls'; simpl; eexists _, _; reflexivity);
    try match goal with
        | H : (0 <? 0) = true |- _ => discriminate H
        end.
  all: use_pending Hinv;
    match goal with
    | H : (?a =? ?b)%string = true |- _ => apply String.eqb_eq in H; subst a
    end;
    match goal with
    | H : (head_char _ =? NUL)%char = true |- _ =>
        rewrite Hcut in H; apply (selector_exhausted _ Hnul) in H;
        rewrite Hlast, <- Hcut in H
    end;
    rewrite Hcalls; simpl;
    match goal with
    | H : last_component sel = _ |- _ => rewrite H
    end;
    eexists _, _; reflexivity.
Qed.

End Targeting.

Section TargetedRuns.

Context {C : Type}.
Variable w : world.
Variable cb : callbacks C.
Variable sel : string.

Lemma run_target (fuel : nat) :
  forall st st' v,
    pending_inv sel st ->
    matched_inv sel cb st ->
    run w cb fuel st = Some (st', v) ->
    pending_inv sel st' /\ matched_inv sel cb st'
    /\ (v = Panic -> next_section st' = None).
Proof.
  induction fuel as [|fuel IH]; intros st st' v Hpending Hmatched Hrun;
    [discriminate|].
  simpl in Hrun.
  pose proof (step_pending w cb sel st Hpending) as Hp.
  pose proof (step_matched w cb sel st Hpending Hmatched) as Hm.
  destruct (step w cb st) as [st1|st1 v1] eqn:Hstep; simpl in Hp, Hm.
  - apply (IH st1 st' v Hp Hm Hrun).
  - injection Hrun as <- <-. split; [exact Hp | split; [exact Hm|]].
    intros ->. apply (step_no_panic w cb sel st st1 Hpending Hstep).
Qed.

Lemma initial_pending pth lines (ctx : C) :
  pending_inv sel (initial pth lines (Some sel) ctx).
Proof.
  intros next Hnext. simpl in *. injection Hnext as <-.
  repeat split; try reflexivity; try lia. apply c_str_no_nul.
Qed.

End TargetedRuns.

(** The call returns with success when a closing line is dispatched at the
    depth recorded for the target and the callback stores no error. *)
Lemma do_section_close_target {C : Type} (cb : callbacks C) (st : reader C)
    sect ctx' accepted :
  skip st <= 0 ->
  sections st <> 0 ->
  root_section st = sections st ->
  sect_callback cb = Some sect ->
  sect None (context st) = (ctx', accepted, None) ->
  exists st',
    do_section_close cb st = Finished st' Success
    /\ calls st' = (calls st ++ [Call_sect_close])%list.
Proof.
  intros Hskip Hsections Hroot Hsect Hcall. unfold do_section_close.
  destruct (sections st =? 0) eqn:H0; [apply Z.eqb_eq in H0; contradiction|].
  destruct (0 <? skip st) eqn:Hlt; [apply Z.ltb_lt in Hlt; lia|].
  rewrite Hsect, Hcall, Hroot, Z.eqb_refl.
  eexists. split; reflexivity.
Qed.

Section Detargeting.

Context {C : Type}.
Variable w : world.
Variable cb : callbacks C.

(** Rewrites the goal with the case equations found by [turn_cases]. *)
Ltac replay :=
  unfold step, turn, dispatch, do_assignment, do_section_open, do_section_close,
    end_of_turn;
  simpl;
  repeat match goal with
         | H : ?x = _ |- context [match ?x with _ => _ end] => rewrite H; simpl
         end.

(** Decides the comparisons of the goal from the arithmetic hypotheses. *)
Ltac fold_eqb :=
  repeat match goal with
         | |- context [?a =? ?b] => destruct (Z.eqb_spec a b); try lia
         | |- context [match ?z with
                       | 0 => true
                       | Z.pos _ => false
                       | Z.neg _ => false
                       end] =>
             change (match z with
                     | 0 => true
                     | Z.pos _ => false
                     | Z.neg _ => false
                     end) with (0 =? z);
             destruct (Z.eqb_spec 0 z); try lia
         end.

(** A turn of the targeted reader inside its target is the turn of the
    untargeted reader, until the line that closes the target: there the
    targeted reader returns with success and the untargeted one goes on. *)
Lemma step_detarget (st : reader C) :
  inside_target st ->
  match step w cb st with
  | Running st' =>
      step w cb (detarget st) = Running (detarget st') /\ inside_target st'
  | Finished st' v =>
      step w cb (detarget st) = Finished (detarget st') v
      \/ (v = Success
          /\ exists u, step w cb (detarget st) = Running u /\ calls u = calls st')
  end.
Proof.
  intros [Hnext [Hroot Hskip]].
  destruct (step w cb st) as [st'|st' v] eqn:Hstep.
  - turn_cases Hstep; try discriminate Hstep; injection Hstep as <-;
      split_hyps; simpl in *; try congruence.
    all: split;
      [ replay; z_bools; fold_eqb;
        try reflexivity;
        unfold detarget; simpl; f_equal; f_equal; try reflexivity; lia
      | z_bools; unfold inside_target; simpl; repeat split;
        try assumption; try lia ].
  - turn_cases Hstep; try discriminate Hstep; injection Hstep as <- <-;
      split_hyps; simpl in *; try congruence.
    all: first
      [ left; replay; z_bools; fold_eqb;
        try reflexivity;
        unfold detarget; simpl; f_equal; f_equal; try reflexivity; lia
      | right; split; [reflexivity|]; eexists; split;
        [ replay; z_bools; fold_eqb; reflexivity | reflexivity ] ].
Qed.

End Detargeting.

Section DetargetedRuns.

Context {C : Type}.
Variable w : world.
Variable cb : callbacks C.

(** Inside its target the targeted reader makes the calls of the untargeted
    one, which either returns the same or goes on when the target closes. *)
Lemma run_detarget (fuel : nat) :
  forall st st' v,
    inside_target st ->
    run w cb fuel st = Some (st', v) ->
    run w cb fuel (detarget st) = Some (detarget st', v)
    \/ (v = Success
        /\ exists n u, turns w cb n (detarget st) u /\ calls u = calls st').
Proof.
  induction fuel as [|fuel IH]; intros st st' v Hinside Hrun; [discriminate|].
  simpl in Hrun. pose proof (step_detarget w cb st Hinside) as Hstep.
  destruct (step w cb st) as [st1|st1 v1].
  - destruct Hstep as [Hstep Hinside1].
    destruct (IH st1 st' v Hinside1 Hrun) as [Hsame|[-> [n [u [Hturns Hcalls]]]]].
    + left. simpl. rewrite Hstep. exact Hsame.
    + right. split; [reflexivity|]. exists (S n), u. split; [|exact Hcalls].
      econstructor; eassumption.
  - injection Hrun as <- <-.
    destruct Hstep as [Hstep|[-> [u [Hstep Hcalls]]]].
    + left. simpl. rewrite Hstep. reflexivity.
    + right. split; [reflexivity|]. exists 1%nat, u. split; [|exact Hcalls].
      econstructor; [exact Hstep | constructor].
Qed.

(** The opening line that uses up the selector, when the section callback
    accepts it: the reader is inside its target from there on. *)
Lemma do_section_open_target (st : reader C) key name sect ctx' :
  next_section st = Some name ->
  Ascii.eqb (head_char (str_drop (String.length name) (section st))) NUL = true ->
  0 <= sections st ->
  sect_callback cb = Some sect ->
  sect (Some (key, name)) (context st) = (ctx', true, None) ->
  exists st',
    do_section_open cb st key name = Running st'
    /\ inside_target st'
    /\ root_section st' = sections st + 1
    /\ calls st' = (calls st ++ [Call_sect_open key name])%list.
Proof.
  intros Hnext Hhead Hsections Hsect Hcall. unfold do_section_open.
  rewrite Hnext, String.eqb_refl, Hhead. cbv iota beta.
  change (0 <? 0) with false. cbv iota. rewrite Hsect, Hcall.
  eexists. split; [reflexivity|].
  unfold inside_target. simpl. repeat split; lia.
Qed.

End DetargetedRuns.

(** ** Termination *)

Lemma on_stack_false (pth : string) (stack : list input_stack) :
  on_stack pth stack = false -> ~ In pth (map path stack).
Proof.
  induction stack as [|fr stack IH]; intros H; [intros []|].
  rewrite on_stack_cons in H. apply orb_false_iff in H. destruct H as [Hfr Hstack].
  intros [Heq|Hin].
  - rewrite Heq, String.eqb_refl in Hfr. discriminate Hfr.
  - apply (IH Hstack Hin).
Qed.

Section StackInvariant.

Variable w : world.
Variable known : list string.
Hypothesis Hfinite : finite_files w known.

Lemma settings_add_include_ok pth stack ignore_errors stack' r :
  stack_ok known stack ->
  settings_add_include w pth stack ignore_errors = (stack', r) ->
  stack_ok known stack'.
Proof.
  intros [Hnodup Hincl] H. unfold settings_add_include in H.
  destruct (on_stack pth stack) eqn:Hon.
  - injection H as <- _. split; assumption.
  - destruct (file_open w pth) as [lines|e] eqn:Hopen.
    + injection H as <- _. split; simpl.
      * constructor; [apply on_stack_false; exact Hon | exact Hnodup].
      * intros p [<-|Hin]; [apply (Hfinite _ _ Hopen) | apply Hincl; exact Hin].
    + destruct ignore_errors; injection H as <- _; split; assumption.
Qed.

Lemma include_paths_ok pathv :
  forall stack ignore_errors stack' r,
    stack_ok known stack ->
    include_paths w pathv stack ignore_errors = (stack', r) ->
    stack_ok known stack'.
Proof.
  induction pathv as [|p pathv IH]; intros stack ignore_errors stack' r Hok H.
  - injection H as <- _. exact Hok.
  - simpl in H.
    destruct (settings_add_include w p stack ignore_errors) as [stack1 [err|]] eqn:Hadd.
    + injection H as <- _. eapply settings_add_include_ok; eassumption.
    + eapply IH; [|exact H]. eapply settings_add_include_ok; eassumption.
Qed.

Lemma settings_include_ok pattern stack ignore_errors stack' r :
  stack_ok known stack ->
  settings_include w pattern stack ignore_errors = (stack', r) ->
  stack_ok known stack'.
Proof.
  intros Hok H. unfold settings_include in H.
  destruct (HAVE_GLOB w).
  - destruct (glob w pattern);
      try (eapply include_paths_ok; eassumption);
      split_matches H; injection H as <- _; exact Hok.
  - eapply settings_add_include_ok; eassumption.
Qed.

End StackInvariant.

Section Termination.

Context {C : Type}.
Variable w : world.
Variable cb : callbacks C.
Variable known : list string.
Hypothesis Hfinite : finite_files w known.

(** A turn keeps the invariant of the stack. *)
Lemma step_stack_ok (st st' : reader C) :
  stack_ok known (input st) ->
  step w cb st = Running st' ->
  stack_ok known (input st').
Proof.
  intros Hok Hstep. unfold step in Hstep.
  destruct (input st) as [|top prev] eqn:Hin; [discriminate Hstep|].
  assert (Hprev : stack_ok known prev).
  { destruct Hok as [Hnodup Hincl]. simpl in *. split.
    - inversion Hnodup; assumption.
    - intros p Hp. apply Hincl. right. exact Hp. }
  destruct (input_lines top) as [|raw rest] eqn:Hlines.
  - destruct prev; [discriminate Hstep|]. injection Hstep as <-. exact Hprev.
  - assert (Hadv : stack_ok known (advance top rest :: prev)) by exact Hok.
    unfold turn in Hstep.
    destruct (scan_line raw) as [|part warn|line warn|].
    + injection Hstep as <-. exact Hadv.
    + injection Hstep as <-. exact Hadv.
    + unfold dispatch in Hstep.
      match type of Hstep with
      | context [classify ?e ?t ?l] => destruct (classify e t l) as [[ev wa] kl]
      end.
      destruct ev as [pattern tolerant|key value quoted|key name| |].
      * simpl input in Hstep.
        destruct (settings_include w pattern (advance top rest :: prev) tolerant)
          as [inputs [err|]] eqn:Hinc; [discriminate Hstep|].
        injection Hstep as <-.
        apply (settings_include_ok w known Hfinite _ _ _ _ _ Hadv Hinc).
      * apply do_assignment_input in Hstep. rewrite Hstep. exact Hadv.
      * apply do_section_open_input in Hstep. rewrite Hstep. exact Hadv.
      * apply do_section_close_input in Hstep. rewrite Hstep. exact Hadv.
      * discriminate Hstep.
    + discriminate Hstep.
Qed.

Lemma turns_halts (n : nat) (st st' : reader C) :
  turns w cb n st st' -> halts w cb st' -> halts w cb st.
Proof.
  intros Hturns [m [r Hrun]]. exists (n + m)%nat, r.
  rewrite (turns_run w cb n m st st' Hturns). exact Hrun.
Qed.

(** A stack that is in order has at most as many frames as there are files. *)
Lemma stack_bounded (stack : list input_stack) :
  stack_ok known stack -> (length stack <= length known)%nat.
Proof.
  intros [Hnodup Hincl]. rewrite <- (length_map path stack).
  apply NoDup_incl_length; assumption.
Qed.

(** Reading the frame on top to its end: either the call returns on the way,
    or the frame is popped and the frames below are as they were.  By
    induction on the room [c] left on the stack, then on the number [m] of
    lines left in the frame. *)
Lemma drain (c : nat) :
  forall (m : nat) (st : reader C) top below,
    input st = top :: below ->
    stack_ok known (top :: below) ->
    (length known - length (top :: below) <= c)%nat ->
    length (input_lines top) = m ->
    halts w cb st
    \/ (exists n st', turns w cb n st st' /\ input st' = below /\ below <> []).
Proof.
  induction c as [|c IHc].
  - (* the stack is full: no line can push a frame *)
    induction m as [|m IHm]; intros st top below Hin Hok Hroom Hlen.
    + destruct (input_lines top) as [|raw rest] eqn:Hlines; [|discriminate Hlen].
      destruct below as [|b below].
      * left. exists 1%nat. eexists. simpl.
        rewrite (step_end w cb st top Hin Hlines). reflexivity.
      * right. exists 1%nat, (with_input st (b :: below) (full_line st)).
        split; [|split; [reflexivity | discriminate]].
        econstructor; [apply (step_pop w cb st top b below Hin Hlines) | constructor].
    + destruct (input_lines top) as [|raw rest] eqn:Hlines; [discriminate Hlen|].
      destruct (step w cb st) as [st1|st1 v] eqn:Hstep.
      2:{ left. exists 1%nat. eexists. simpl. rewrite Hstep. reflexivity. }
      pose proof (step_stack_ok st st1 ltac:(rewrite Hin; exact Hok) Hstep) as Hok1.
      destruct (step_stack_discipline w cb st st1 top below Hin Hstep)
        as [[Hnil _]|[raw' [rest' [pushed [Hlines' Hin1]]]]];
        [rewrite Hlines in Hnil; discriminate Hnil|].
      rewrite Hlines in Hlines'. injection Hlines' as <- <-.
      assert (Hpushed : pushed = []).
      { rewrite Hin1 in Hok1. apply stack_bounded in Hok1.
        rewrite length_app in Hok1. simpl in Hok1, Hroom.
        destruct pushed; [reflexivity | simpl in Hok1; lia]. }
      subst pushed. simpl in Hin1.
      destruct (IHm st1 (advance top rest) below Hin1
                  ltac:(rewrite <- Hin1; exact Hok1) Hroom
                  ltac:(simpl in Hlen; simpl; lia))
        as [Hhalt|[n [st' [Hturns [Hin' Hne]]]]].
      * left. apply (turns_halts 1 st st1); [|exact Hhalt].
        econstructor; [exact Hstep | constructor].
      * right. exists (S n), st'. split; [|split; assumption].
        econstructor; eassumption.
  - induction m as [|m IHm]; intros st top below Hin Hok Hroom Hlen.
    + destruct (input_lines top) as [|raw rest] eqn:Hlines; [|discriminate Hlen].
      destruct below as [|b below].
      * left. exists 1%nat. eexists. simpl.
        rewrite (step_end w cb st top Hin Hlines). reflexivity.
      * right. exists 1%nat, (with_input st (b :: below) (full_line st)).
        split; [|split; [reflexivity | discriminate]].
        econstructor; [apply (step_pop w cb st top b below Hin Hlines) | constructor].
    + destruct (input_lines top) as [|raw rest] eqn:Hlines; [discriminate Hlen|].
      destruct (step w cb st) as [st1|st1 v] eqn:Hstep.
      2:{ left. exists 1%nat. eexists. simpl. rewrite Hstep. reflexivity. }
      pose proof (step_stack_ok st st1 ltac:(rewrite Hin; exact Hok) Hstep) as Hok1.
      destruct (step_stack_discipline w cb st st1 top below Hin Hstep)
        as [[Hnil _]|[raw' [rest' [pushed [Hlines' Hin1]]]]];
        [rewrite Hlines in Hnil; discriminate Hnil|].
      rewrite Hlines in Hlines'. injection Hlines' as <- <-.
      (* the frames pushed by the line are read first, from the top down *)
      assert (Hdrain : forall pushed (st1 : reader C),
                 input st1 = (pushed ++ advance top rest :: below)%list ->
                 stack_ok known (pushed ++ advance top rest :: below)%list ->
                 halts w cb st1
                 \/ (exists n st2, turns w cb n st1 st2
                                   /\ input st2 = advance top rest :: below)).
      { clear st1 Hstep Hok1 pushed Hin1.
        induction pushed as [|g pushed IHp]; intros st1 Hin1 Hok1.
        - right. exists O, st1. split; [constructor | exact Hin1].
        - simpl app in Hin1, Hok1.
          destruct (IHc (length (input_lines g)) st1 g _ Hin1 Hok1
                      ltac:(simpl in *; rewrite length_app; simpl; lia) eq_refl)
            as [Hhalt|[n [st2 [Hturns [Hin2 _]]]]]; [left; exact Hhalt|].
          assert (Hok2 : stack_ok known (pushed ++ advance top rest :: below)%list).
          { destruct Hok1 as [Hnodup Hincl]. simpl in *. split.
            - inversion Hnodup; assumption.
            - intros p Hp. apply Hincl. right. exact Hp. }
          destruct (IHp st2 Hin2 Hok2) as [Hhalt|[n' [st3 [Hturns' Hin3]]]].
          + left. apply (turns_halts n st1 st2 Hturns Hhalt).
          + right. exists (n + n')%nat, st3. split; [|exact Hin3].
            eapply turns_trans; eassumption. }
      destruct (Hdrain pushed st1 Hin1 ltac:(rewrite <- Hin1; exact Hok1))
        as [Hhalt|[n [st2 [Hturns Hin2]]]].
      * left. apply (turns_halts 1 st st1); [|exact Hhalt].
        econstructor; [exact Hstep | constructor].
      * destruct (IHm st2 (advance top rest) below Hin2 Hok Hroom
                    ltac:(simpl in Hlen; simpl; lia))
          as [Hhalt|[n' [st' [Hturns' [Hin' Hne]]]]].
        -- left. apply (turns_halts (S n) st st2); [|exact Hhalt].
           econstructor; eassumption.
        -- right. exists (S n + n')%nat, st'. split; [|split; assumption].
           eapply turns_trans; [|exact Hturns'].
           econstructor; eassumption.
Qed.

End Termination.

(** On a finite file system [settings_read_i] returns. *)
Lemma settings_read_i_returns {C : Type} (w : world) (cb : callbacks C)
    (known : list string) pth sect (ctx : C) :
  finite_files w known ->
  exists fuel r, settings_read_i w cb pth sect ctx fuel = Some r.
Proof.
  intros Hfinite. unfold settings_read_i.
  destruct (file_open w pth) as [lines|e] eqn:Hopen.
  - assert (Hok : stack_ok known [{| path := pth; input_lines := lines; linenum := 0 |}]).
    { split; simpl.
      - constructor; [intros [] | constructor].
      - intros p [<-|[]]. apply (Hfinite _ _ Hopen). }
    destruct (drain w cb known Hfinite (length known) (length lines)
                (initial pth lines sect ctx) _ [] eq_refl Hok
                ltac:(simpl; lia) eq_refl)
      as [Hhalt|[n [st' [_ [_ Hne]]]]].
    + exact Hhalt.
    + contradiction.
  - exists O. eexists. reflexivity.
Qed.

Lemma single_file_finite (lines : list string) :
  finite_files (single_file lines) [conf].
Proof.
  intros p ls. unfold single_file, world_of. cbn [file_open lookup_file].
  destruct (String.eqb_spec conf p) as [<-|_]; [left; reflexivity | discriminate].
Qed.

(** ** Path targeting *)




